(** * yimt.corpus: filters and normalizers of the parallel-corpus cleaner

    A shallow embedding of [yimt/corpus/filters.py] and
    [yimt/corpus/normalizers.py].

    - A Python [str] is a list of Unicode code points ([char := N]).
    - A call that may raise returns a [result]; [Raise e] is the exception.
    - A filter returns [Some (src, tgt)] (keep) or [None] (discard), as the
      Python method returns the tuple or [None].
    - Thresholds and ratios (Python ints or floats) are exact rationals [Q];
      the rounding of float arithmetic is not modelled.
    - Functions the source imports from modules that are not part of the two
      files ([yimt.corpus.utils], [yimt.api.utils], [difflib], the Unicode
      tables behind [regex] and [str.upper]) are parameters of the
      definitions that call them. *)

From Stdlib Require Import List NArith ZArith QArith Bool Lia String Ascii.
Import ListNotations.
Close Scope Q_scope.

Set Implicit Arguments.

(* ================================================================== *)
(** * Python built-ins used by the source *)
(* ================================================================== *)

Module Py.

Definition char := N.
Definition str := list char.

(** An ASCII literal as a [str]. *)
Definition lit (s : string) : str := map N_of_ascii (list_ascii_of_string s).

Inductive exn := ZeroDivisionError | IndexError | ValueError | RegexError.

Inductive result (A : Type) : Type :=
| Ok (a : A)
| Raise (e : exn).
Arguments Ok {A} a.
Arguments Raise {A} e.

Definition bind {A B} (r : result A) (k : A -> result B) : result B :=
  match r with
  | Ok a => k a
  | Raise e => Raise e
  end.

Fixpoint str_eqb (a b : str) : bool :=
  match a, b with
  | [], [] => true
  | x :: a', y :: b' => (x =? y)%N && str_eqb a' b'
  | _, _ => false
  end.

Definition len (s : str) : Z := Z.of_nat (List.length s).

(** [str.isspace] of one code point (CPython's [_PyUnicode_IsWhitespace]);
    [str.strip], [str.split] and [re]'s [\s] all use it. *)
Definition isspace (c : char) : bool :=
  ((0x09 <=? c) && (c <=? 0x0D) || (0x1C <=? c) && (c <=? 0x20)
   || (c =? 0x85) || (c =? 0xA0) || (c =? 0x1680)
   || (0x2000 <=? c) && (c <=? 0x200A)
   || (c =? 0x2028) || (c =? 0x2029) || (c =? 0x202F) || (c =? 0x205F)
   || (c =? 0x3000))%N.

Fixpoint lstrip (s : str) : str :=
  match s with
  | [] => []
  | c :: rest => if isspace c then lstrip rest else s
  end.

Fixpoint rstrip (s : str) : str :=
  match s with
  | [] => []
  | c :: rest =>
      match rstrip rest with
      | [] => if isspace c then [] else [c]
      | kept => c :: kept
      end
  end.

(** [s.strip()] *)
Definition strip (s : str) : str := rstrip (lstrip s).

(** The maximal runs of code points satisfying [keep], left to right.
    [word] is the run being read, most recent code point first. *)
Fixpoint runs_from (keep : char -> bool) (word : str) (s : str) : list str :=
  match s with
  | [] => match word with [] => [] | _ => [rev word] end
  | c :: rest =>
      if keep c then runs_from keep (c :: word) rest
      else match word with
           | [] => runs_from keep [] rest
           | _ => rev word :: runs_from keep [] rest
           end
  end.

(** [s.split()]: the whitespace-delimited tokens. *)
Definition split (s : str) : list str :=
  runs_from (fun c => negb (isspace c)) [] s.

(** [s.split(sep)] for a one-character separator: always at least one field. *)
Fixpoint split_on (sep : char) (s : str) : list str :=
  match s with
  | [] => [[]]
  | c :: rest =>
      if (c =? sep)%N then [] :: split_on sep rest
      else match split_on sep rest with
           | field :: fields => (c :: field) :: fields
           | [] => [[c]]
           end
  end.

(** [xs[i]] *)
Definition index {A} (xs : list A) (i : nat) : result A :=
  match nth_error xs i with
  | Some x => Ok x
  | None => Raise IndexError
  end.

(** [max(xs)] on a list of integers *)
Definition max (xs : list Z) : result Z :=
  match xs with
  | [] => Raise ValueError
  | x :: rest => Ok (fold_left Z.max rest x)
  end.

(** [a / b] on integers (true division) *)
Definition truediv (a b : Z) : result Q :=
  if (b =? 0)%Z then Raise ZeroDivisionError else Ok (Qmake a (Z.to_pos b)).

Definition Qlt_bool (a b : Q) : bool := negb (Qle_bool b a).

Fixpoint starts_with (p s : str) : bool :=
  match p, s with
  | [], _ => true
  | a :: p', b :: s' => (a =? b)%N && starts_with p' s'
  | _ :: _, [] => false
  end.

(** [s.replace(old, new)] for a non-empty [old]: matches are taken left to
    right and do not overlap. [skip] counts the code points of the current
    match still to be consumed. *)
Fixpoint replace_from (old new : str) (skip : nat) (s : str) : str :=
  match s with
  | [] => []
  | c :: rest =>
      match skip with
      | S k => replace_from old new k rest
      | O =>
          if starts_with old s
          then new ++ replace_from old new (List.length old - 1) rest
          else c :: replace_from old new 0 rest
      end
  end.

Definition replace (old new s : str) : str := replace_from old new 0 s.

(** Position of the first [c] in [s], if any. *)
Fixpoint first_index (c : char) (s : str) : option nat :=
  match s with
  | [] => None
  | d :: rest =>
      if (d =? c)%N then Some O
      else match first_index c rest with
           | Some k => Some (S k)
           | None => None
           end
  end.

(** [s[lo:hi]] for [0 <= lo], [0 <= hi] *)
Definition slice (s : str) (lo hi : Z) : str :=
  firstn (Z.to_nat hi - Z.to_nat lo) (skipn (Z.to_nat lo) s).

(** [s.find(c, start, stop)] for a one-character [c] and [0 <= start]:
    the lowest index in [s[start:stop]], or [-1]. *)
Definition find (c : char) (s : str) (start stop : Z) : Z :=
  match first_index c (slice s start stop) with
  | Some k => start + Z.of_nat k
  | None => -1
  end.

(** [s.find(w) != -1] for a string [w]: [w] occurs in [s]. *)
Fixpoint contains (w s : str) : bool :=
  starts_with w s
  || match s with
     | [] => false
     | _ :: rest => contains w rest
     end.

(** ** Case mapping *)

Definition is_ascii_cp (c : char) : bool := (c <? 128)%N.

Definition ascii_upper (c : char) : char :=
  if ((0x61 <=? c) && (c <=? 0x7A))%N then (c - 32)%N else c.

Definition ascii_lower (c : char) : char :=
  if ((0x41 <=? c) && (c <=? 0x5A))%N then (c + 32)%N else c.

(** The Unicode case tables CPython consults for a non-ASCII string. *)
Record case_db := {
  ToUpperFull : char -> str;
  ToLowerFull : char -> str;
  IsCased : char -> bool;
  IsCaseIgnorable : char -> bool
}.

Fixpoint skip_ignorable (db : case_db) (s : str) : str :=
  match s with
  | [] => []
  | c :: rest => if IsCaseIgnorable db c then skip_ignorable db rest else s
  end.

(** CPython's [handle_capital_sigma]: [before] holds the preceding code
    points, nearest first; [after] the following ones. *)
Definition final_sigma (db : case_db) (before after : str) : bool :=
  match skip_ignorable db before with
  | c :: _ =>
      IsCased db c
      && match skip_ignorable db after with
         | [] => true
         | d :: _ => negb (IsCased db d)
         end
  | [] => false
  end.

Fixpoint lower_from (db : case_db) (before s : str) : str :=
  match s with
  | [] => []
  | c :: rest =>
      (if (c =? 0x3A3)%N
       then [if final_sigma db before rest then 0x3C2%N else 0x3C3%N]
       else ToLowerFull db c)
      ++ lower_from db (c :: before) rest
  end.

(** [s.lower()] *)
Definition lower (db : case_db) (s : str) : str :=
  if forallb is_ascii_cp s then map ascii_lower s else lower_from db [] s.

(** [s.upper()] *)
Definition upper (db : case_db) (s : str) : str :=
  if forallb is_ascii_cp s then map ascii_upper s
  else flat_map (ToUpperFull db) s.

End Py.

Export Py.

Notation "x <- r ;; k" := (bind r (fun x => k))
  (at level 61, r at next level, right associativity).

Definition pair := (str * str)%type.

(* ================================================================== *)
(** * filters.py *)
(* ================================================================== *)

(** The Unicode property tables behind the [regex] module: the classes
    [\p{Alphabetic}] and [\s], and the lookup of a [Script=] value, which
    is [None] for a name that is no script ([regex.compile] then raises). *)
Record regex_db := {
  Alphabetic : char -> bool;
  White_Space : char -> bool;
  Script : string -> option (char -> bool)
}.

(** [pattern.sub('', s)] for a pattern that is one character class. *)
Definition sub_class (class : char -> bool) (s : str) : str :=
  List.filter (fun c => negb (class c)) s.

Module SameFilter.

Record t := { _lower : bool }.

Definition filter (db : case_db) (self : t) (src tgt : str) : option pair :=
  if _lower self
  then if str_eqb (lower db (strip src)) (lower db (strip tgt))
       then None else Some (src, tgt)
  else if str_eqb (strip src) (strip tgt)
       then None else Some (src, tgt).

End SameFilter.

Module HasZhFilter.

Record t := { filter_src : bool }.

Definition filter (has_zh : str -> bool) (self : t) (src tgt : str)
  : option pair :=
  if filter_src self
  then if has_zh src then None else Some (src, tgt)
  else if has_zh tgt then None else Some (src, tgt).

End HasZhFilter.

Module OverlapFilter.

Record t := { _ratio : Q }.

(** [SequenceMatcher_ratio src tgt] stands for
    [difflib.SequenceMatcher(None, src, tgt).ratio()]. *)
Definition filter (SequenceMatcher_ratio : str -> str -> Q) (self : t)
  (src tgt : str) : option pair :=
  if Qlt_bool (_ratio self) (SequenceMatcher_ratio src tgt)
  then None else Some (src, tgt).

End OverlapFilter.

Module EmptyFilter.

Definition filter (src tgt : str) : option pair :=
  if (len (strip src) =? 0)%Z || (len (strip tgt) =? 0)%Z
  then None else Some (src, tgt).

End EmptyFilter.

Module AllASCII.

Definition filter (is_ascii : str -> bool) (src tgt : str) : option pair :=
  let is_src_en := is_ascii src in
  let is_tgt_en := is_ascii tgt in
  if is_src_en && is_tgt_en then None else Some (src, tgt).

End AllASCII.

Module ASCIIRatioFilter.

Record t := { _threshold : Q; _filter_src : bool; _filter_tgt : bool }.

(** [ASCIIRatioFilter()] *)
Definition default : t :=
  {| _threshold := Qmake 67 100; _filter_src := false; _filter_tgt := true |}.

Section WithUtils.
Variable is_ascii_char : char -> bool.

Definition n_ascii (s : str) : Z :=
  fold_left (fun n c => if is_ascii_char c then (n + 1)%Z else n) s 0%Z.

(** [flag and n_ascii(s)/len(s) > threshold]: the division is evaluated
    only when [flag] holds. *)
Definition too_ascii (self : t) (flag : bool) (s : str) : result bool :=
  if flag
  then r <- truediv (n_ascii s) (len s) ;; Ok (Qlt_bool (_threshold self) r)
  else Ok false.

Definition filter (self : t) (src tgt : str) : result (option pair) :=
  b <- too_ascii self (_filter_src self) src ;;
  if b then Ok None
  else
    b <- too_ascii self (_filter_tgt self) tgt ;;
    if b then Ok None else Ok (Some (src, tgt)).

End WithUtils.
End ASCIIRatioFilter.

Module LangFilter.

Record t := { src_lang : string; tgt_lang : string }.

Definition filter (detect_lang : str -> string) (self : t) (src tgt : str)
  : option pair :=
  if negb (String.eqb (detect_lang src) (src_lang self))
     || negb (String.eqb (detect_lang tgt) (tgt_lang self))
  then None else Some (src, tgt).

End LangFilter.

(** [bound is not None and p(bound)] *)
Definition set_and (bound : option Z) (p : Z -> bool) : bool :=
  match bound with
  | Some b => p b
  | None => false
  end.

Module LenFilter.

Record t := {
  src_min_len : option Z; src_max_len : option Z;
  tgt_min_len : option Z; tgt_max_len : option Z;
  src_len_fn : str -> Z; tgt_len_fn : str -> Z
}.

Definition filter (self : t) (src tgt : str) : option pair :=
  let src_len := src_len_fn self src in
  let tgt_len := tgt_len_fn self tgt in
  if set_and (src_min_len self) (fun m => src_len <? m)%Z then None
  else if set_and (src_max_len self) (fun m => m <? src_len)%Z then None
  else if set_and (tgt_min_len self) (fun m => tgt_len <? m)%Z then None
  else if set_and (tgt_max_len self) (fun m => m <? tgt_len)%Z then None
  else Some (src, tgt).

End LenFilter.

(** [a <= ratio * b and b <= ratio * a], the products taken exactly.
    Python rounds the product when the ratio is a float; the rounded and
    the exact test can differ for a float ratio above 1. *)
Definition within_ratio (ratio : Q) (a b : Z) : bool :=
  Qle_bool (inject_Z a) (ratio * inject_Z b)
  && Qle_bool (inject_Z b) (ratio * inject_Z a).

Module LenDiffFilter.

Record t := { ratio : Q; src_len_fn : str -> Z; tgt_len_fn : str -> Z }.

(** [LenDiffFilter(ratio)]: both length functions default to [len]. *)
Definition init (ratio : Q) : t :=
  {| ratio := ratio; src_len_fn := len; tgt_len_fn := len |}.

Definition filter (self : t) (src tgt : str) : option pair :=
  let len_src := src_len_fn self src in
  let len_tgt := tgt_len_fn self tgt in
  if within_ratio (ratio self) len_src len_tgt
  then Some (src, tgt) else None.

End LenDiffFilter.

Module LengthFilter.

Definition space_sep_len_f (s : str) : Z := Z.of_nat (List.length (split s)).
Definition char_len_f (s : str) : Z := len s.

Record t := {
  src_len_fn : str -> Z; tgt_len_fn : str -> Z;
  src_min_len : option Z; src_max_len : option Z;
  tgt_min_len : option Z; tgt_max_len : option Z;
  ratio : Q
}.

(** [LengthFilter(ratio=ratio)]: character counts, no bounds. *)
Definition init (ratio : Q) : t :=
  {| src_len_fn := len; tgt_len_fn := len;
     src_min_len := None; src_max_len := None;
     tgt_min_len := None; tgt_max_len := None;
     ratio := ratio |}.

(** The four bound tests that precede the ratio test. *)
Definition out_of_bounds (self : t) (src_len tgt_len : Z) : bool :=
  set_and (src_min_len self) (fun m => src_len <? m)%Z
  || set_and (src_max_len self) (fun m => m <? src_len)%Z
  || set_and (tgt_min_len self) (fun m => tgt_len <? m)%Z
  || set_and (tgt_max_len self) (fun m => m <? tgt_len)%Z.

Definition filter (self : t) (src tgt : str) : option pair :=
  let src_len := src_len_fn self src in
  let tgt_len := tgt_len_fn self tgt in
  if set_and (src_min_len self) (fun m => src_len <? m)%Z then None
  else if set_and (src_max_len self) (fun m => m <? src_len)%Z then None
  else if set_and (tgt_min_len self) (fun m => tgt_len <? m)%Z then None
  else if set_and (tgt_max_len self) (fun m => m <? tgt_len)%Z then None
  else if within_ratio (ratio self) src_len tgt_len
       then Some (src, tgt) else None.

End LengthFilter.

Module LongWordFilter.

Record t := { src_max_len : option Z; tgt_max_len : option Z }.

(** [LongWordFilter()] *)
Definition default : t :=
  {| src_max_len := Some 40%Z; tgt_max_len := Some 40%Z |}.

(** [bound is not None and max([len(w) for w in s.split()]) > bound] *)
Definition too_long (bound : option Z) (s : str) : result bool :=
  match bound with
  | None => Ok false
  | Some m => longest <- max (map len (split s)) ;; Ok (m <? longest)%Z
  end.

Definition filter (self : t) (src tgt : str) : result (option pair) :=
  match src_max_len self, tgt_max_len self with
  | None, None => Ok (Some (src, tgt))
  | _, _ =>
      b <- too_long (src_max_len self) src ;;
      if b then Ok None
      else
        b <- too_long (tgt_max_len self) tgt ;;
        if b then Ok None else Ok (Some (src, tgt))
  end.

End LongWordFilter.

Module AlphabetRatioFilter.

Record t := { threshold : Q; exclude_whitespace : bool }.

(** [AlphabetRatioFilter()] *)
Definition default : t :=
  {| threshold := Qmake 3 4; exclude_whitespace := false |}.

Section WithRegex.
Variable db : regex_db.

Definition score (self : t) (s : str) : result Q :=
  let segment :=
    if exclude_whitespace self then sub_class (White_Space db) s else s in
  let alphas := sub_class (fun c => negb (Alphabetic db c)) s in
  truediv (len alphas) (len segment).

Definition filter (self : t) (src tgt : str) : result (option pair) :=
  a <- score self src ;;
  if Qle_bool (threshold self) a
  then
    b <- score self tgt ;;
    if Qle_bool (threshold self) b then Ok (Some (src, tgt)) else Ok None
  else Ok None.

End WithRegex.
End AlphabetRatioFilter.

Module CharacterRatioFilter.

Definition lang2script : list (string * string) :=
  [ ("zh", "Han"); ("en", "Latin"); ("ko", "Hangul");
    ("ar", "Arabic"); ("th", "Thai") ]%string.

(** [lang2script[lang]] *)
Fixpoint lookup (table : list (string * string)) (key : string)
  : option string :=
  match table with
  | [] => None
  | (k, v) :: rest => if String.eqb k key then Some v else lookup rest key
  end.

(** [re_not_script] holds, per script, the class [\p{^Script=script}]. *)
Record t := {
  scripts : list string;
  thresholds : list Q;
  re_not_script : list (char -> bool)
}.

Section WithRegex.
Variable db : regex_db.

(** [regex.compile(fr'\p{{^Script={script}}}')] *)
Definition compile_not_script (script : string) : result (char -> bool) :=
  match Script db script with
  | Some in_script => Ok (fun c => negb (in_script c))
  | None => Raise RegexError
  end.

Fixpoint compile_all (names : list string) : result (list (char -> bool)) :=
  match names with
  | [] => Ok []
  | script :: rest =>
      r <- compile_not_script script ;;
      rs <- compile_all rest ;;
      Ok (r :: rs)
  end.

(** [CharacterRatioFilter(scripts, thresholds)] *)
Definition init (scripts : list string) (thresholds : option (list Q))
  : result t :=
  let thresholds :=
    match thresholds with
    | None => repeat (Qmake 1 1) (List.length scripts)
    | Some ths => ths
    end in
  compiled <- compile_all scripts ;;
  Ok {| scripts := scripts; thresholds := thresholds;
        re_not_script := compiled |}.

Definition score (self : t) (sent : str) (idx : nat) : result Q :=
  let alphas := sub_class (fun c => negb (Alphabetic db c)) sent in
  match alphas with
  | [] => Ok (Qmake 0 1)
  | _ =>
      not_script <- index (re_not_script self) idx ;;
      let script := sub_class not_script alphas in
      truediv (len script) (len alphas)
  end.

Definition filter (self : t) (src tgt : str) : result (option pair) :=
  s0 <- score self src 0 ;;
  t0 <- index (thresholds self) 0 ;;
  if Qlt_bool s0 t0 then Ok None
  else
    s1 <- score self tgt 1 ;;
    t1 <- index (thresholds self) 1 ;;
    if Qlt_bool s1 t1 then Ok None else Ok (Some (src, tgt)).

End WithRegex.
End CharacterRatioFilter.

Module AugumentForZhFilter.

(** The class [[a-zA-Z0-9]] of [en_word_regex]. *)
Definition en_word_char (c : char) : bool :=
  ((0x61 <=? c) && (c <=? 0x7A) || (0x41 <=? c) && (c <=? 0x5A)
   || (0x30 <=? c) && (c <=? 0x39))%N.

Definition _get_en_words (s : str) : list str :=
  runs_from en_word_char [] s.

Definition _exist (words : list str) (s : str) : bool :=
  forallb (fun w => contains w s) words.

Definition filter (src tgt : str) : option pair :=
  let src_en_words := _get_en_words src in
  if negb (_exist src_en_words tgt) then None
  else
    let tgt_en_words := _get_en_words tgt in
    if negb (_exist tgt_en_words src) then None else Some (src, tgt).

End AugumentForZhFilter.

(** ** The filter family

    [Filter] is a constructed instance of one of the concrete subclasses of
    the base class; [Filter_filter] is the call [f.filter(src, tgt)]. *)

Record externals := {
  is_ascii_char : char -> bool;
  is_ascii : str -> bool;
  has_zh : str -> bool;
  detect_lang : str -> string;
  SequenceMatcher_ratio : str -> str -> Q;
  cases : case_db;
  properties : regex_db
}.

Inductive Filter :=
| Same (f : SameFilter.t)
| HasZh (f : HasZhFilter.t)
| Overlap (f : OverlapFilter.t)
| Empty
| AllAscii
| ASCIIRatio (f : ASCIIRatioFilter.t)
| Lang (f : LangFilter.t)
| Len (f : LenFilter.t)
| LenDiff (f : LenDiffFilter.t)
| Length (f : LengthFilter.t)
| LongWord (f : LongWordFilter.t)
| AlphabetRatio (f : AlphabetRatioFilter.t)
| CharacterRatio (f : CharacterRatioFilter.t)
| AugumentForZh.

Definition Filter_filter (ext : externals) (f : Filter) (src tgt : str)
  : result (option pair) :=
  match f with
  | Same f => Ok (SameFilter.filter (cases ext) f src tgt)
  | HasZh f => Ok (HasZhFilter.filter (has_zh ext) f src tgt)
  | Overlap f =>
      Ok (OverlapFilter.filter (SequenceMatcher_ratio ext) f src tgt)
  | Empty => Ok (EmptyFilter.filter src tgt)
  | AllAscii => Ok (AllASCII.filter (is_ascii ext) src tgt)
  | ASCIIRatio f => ASCIIRatioFilter.filter (is_ascii_char ext) f src tgt
  | Lang f => Ok (LangFilter.filter (detect_lang ext) f src tgt)
  | Len f => Ok (LenFilter.filter f src tgt)
  | LenDiff f => Ok (LenDiffFilter.filter f src tgt)
  | Length f => Ok (LengthFilter.filter f src tgt)
  | LongWord f => LongWordFilter.filter f src tgt
  | AlphabetRatio f => AlphabetRatioFilter.filter (properties ext) f src tgt
  | CharacterRatio f =>
      CharacterRatioFilter.filter (properties ext) f src tgt
  | AugumentForZh => Ok (AugumentForZhFilter.filter src tgt)
  end.

(* ================================================================== *)
(** * normalizers.py *)
(* ================================================================== *)

Definition space : char := 0x20%N.
Definition tab : char := 0x09%N.

Module SpaceNormalizer.

(** [re.sub(r"\s{2,}", " ", s)]: every maximal run of two or more
    whitespace code points becomes one space. [in_run] holds while the scan
    is inside a run that has already been replaced. *)
Fixpoint sub_space_runs (in_run : bool) (s : str) : str :=
  match s with
  | [] => []
  | c :: rest =>
      if isspace c
      then if in_run then sub_space_runs true rest
           else match rest with
                | d :: _ =>
                    if isspace d then space :: sub_space_runs true rest
                    else c :: sub_space_runs false rest
                | [] => [c]
                end
      else c :: sub_space_runs false rest
  end.

Section WithUtils.
Variable is_ascii_char : char -> bool.

(** The loop over [range(len(s))]: [prev] is [s[i - 1]] when [i > 0], the
    head of [rest] is [s[i + 1]] when [i < len(s) - 1]. *)
Fixpoint drop_spaces (prev : option char) (s : str) : str :=
  match s with
  | [] => []
  | c :: rest =>
      if (c =? space)%N
         && (match prev with
             | Some p => negb (is_ascii_char p)
             | None => false
             end
             || match rest with
                | n :: _ => negb (is_ascii_char n)
                | [] => false
                end)
      then drop_spaces (Some c) rest
      else c :: drop_spaces (Some c) rest
  end.

Definition normalize (s : str) : str :=
  let s := strip s in
  let s := replace [0x3000%N] [space] s in
  let s := replace [0xA0%N] [space] s in
  let s := sub_space_runs false s in
  let s := strip s in
  drop_spaces None s.

End WithUtils.
End SpaceNormalizer.

Module NoPrintNormalizer.

Definition unprintable (c : char) : bool :=
  ((0x00 <=? c) && (c <=? 0x08) || (0x0A <=? c) && (c <=? 0x1F)
   || (c =? 0x7F))%N.

Definition normalize (s : str) : str :=
  List.filter (fun c => negb (unprintable c)) s.

End NoPrintNormalizer.

(** Every entry is a pair of one-character strings, so a punctuation mark
    is a [char]. *)
Definition punct_pairs : list (char * char) :=
  [ (0x201C, 0x201D); (0x22, 0x22); (0x2018, 0x2019);
    (0xFF08, 0xFF09); (0x300A, 0x300B); (0x28, 0x29) ]%N.

(** [s[:idx] + s[idx + 1:]] *)
Definition delete_at (s : str) (idx : Z) : str :=
  slice s 0 idx ++ slice s (idx + 1) (len s).

Definition normalize_pair_punct (s : str) (left_punct right_punct : char)
  : str :=
  let s := replace [left_punct; left_punct] [] s in
  let s := replace [left_punct; left_punct; left_punct] [left_punct] s in
  let s := replace [right_punct; right_punct] [] s in
  let s := replace [right_punct; right_punct; right_punct] [right_punct] s in
  let idx := find left_punct s 0 (len s) in
  let s :=
    if (0 <=? idx)%Z
    then let has_pair := find right_punct s (idx + 1) (len s) in
         if (has_pair =? -1)%Z then delete_at s idx else s
    else s in
  let idx := find right_punct s 0 (len s) in
  let s :=
    if (0 <=? idx)%Z
    then let has_pair := find left_punct s 0 idx in
         if (has_pair =? -1)%Z then delete_at s idx else s
    else s in
  s.

Module PairPunctNormalizer.

Definition normalize_pair (src tgt : str) : str * str :=
  fold_left
    (fun st p =>
       (normalize_pair_punct (fst st) (fst p) (snd p),
        normalize_pair_punct (snd st) (fst p) (snd p)))
    punct_pairs (src, tgt).

Definition normalize (s : str) : result str :=
  let pair := split_on tab s in
  src <- index pair 0 ;;
  tgt <- index pair 1 ;;
  let st := normalize_pair src tgt in
  Ok (fst st ++ [tab] ++ snd st).

End PairPunctNormalizer.

Module Hant2Hans.

Record t := { norm_src : bool; norm_tgt : bool }.

(** The value returned together with the lines written by [print]. *)
Record outcome := { printed : list str; returned : str }.

Definition normalize (hant_2_hans : str -> str) (self : t) (s : str)
  : outcome :=
  if negb (norm_src self) && negb (norm_tgt self)
  then {| printed := []; returned := s |}
  else
    match split_on tab s with
    | [src; tgt] =>
        let src := if norm_src self then hant_2_hans src else src in
        let tgt := if norm_tgt self then hant_2_hans tgt else tgt in
        {| printed := []; returned := src ++ [tab] ++ tgt |}
    | _ => {| printed := [s]; returned := s |}
    end.

End Hant2Hans.

(** ** The scan as the specification words it

    A doubled or tripled bracket becomes a single one; then the first
    opening bracket with no closing bracket after it is deleted, and the
    first closing bracket with no opening bracket before it. *)

Definition spec_collapse (c : char) (s : str) : str :=
  replace [c; c] [c] (replace [c; c; c] [c] s).

Fixpoint spec_delete_unmatched_open (l r : char) (s : str) : str :=
  match s with
  | [] => []
  | c :: rest =>
      if (c =? l)%N && negb (existsb (N.eqb r) rest) then rest
      else c :: spec_delete_unmatched_open l r rest
  end.

Fixpoint spec_delete_unmatched_close (l r : char) (seen_open : bool)
  (s : str) : str :=
  match s with
  | [] => []
  | c :: rest =>
      if (c =? r)%N && negb seen_open then rest
      else c :: spec_delete_unmatched_close l r (seen_open || (c =? l)%N) rest
  end.

Definition spec_normalize_pair_punct (s : str) (l r : char) : str :=
  let s := spec_collapse r (spec_collapse l s) in
  let s := spec_delete_unmatched_open l r s in
  spec_delete_unmatched_close l r false s.

(** ** Excerpts of the Unicode tables, for evaluating concrete calls *)

(** [UnicodeData.txt] and [SpecialCasing.txt] on Latin-1: U+00DF has the
    upper case "SS" and is its own lower case; U+00FF and U+00B5 have the
    upper cases U+0178 and U+039C, which lower to U+00FF and to U+03BC.
    Any other code point outside Latin-1 the excerpt maps to itself. *)
Definition latin1_cases : case_db :=
  {| ToUpperFull := fun c =>
       if (c =? 0xDF)%N then [0x53; 0x53]%N
       else if (c =? 0xB5)%N then [0x39C%N]
       else if (c =? 0xFF)%N then [0x178%N]
       else if ((0xE0 <=? c) && (c <=? 0xFE) && negb (c =? 0xF7))%N
            then [(c - 32)%N]
       else [ascii_upper c];
     ToLowerFull := fun c =>
       if (c =? 0x178)%N then [0xFF%N]
       else if (c =? 0x39C)%N then [0x3BC%N]
       else if ((0xC0 <=? c) && (c <=? 0xDE) && negb (c =? 0xD7))%N
       then [(c + 32)%N] else [ascii_lower c];
     IsCased := fun c =>
       ((0x41 <=? c) && (c <=? 0x5A) || (0x61 <=? c) && (c <=? 0x7A)
        || (c =? 0xAA) || (c =? 0xB5) || (c =? 0xBA)
        || (0xC0 <=? c) && (c <=? 0xFF) && negb (c =? 0xD7)
           && negb (c =? 0xF7))%N;
     IsCaseIgnorable := fun c =>
       ((c =? 0x27) || (c =? 0x2E) || (c =? 0x3A) || (c =? 0x5E)
        || (c =? 0x60) || (c =? 0xA8) || (c =? 0xAD) || (c =? 0xAF)
        || (c =? 0xB4) || (c =? 0xB7) || (c =? 0xB8))%N |}.

Definition basic_latin_letter (c : char) : bool :=
  ((0x41 <=? c) && (c <=? 0x5A) || (0x61 <=? c) && (c <=? 0x7A))%N.

Definition cjk_unified_ideograph (c : char) : bool :=
  ((0x4E00 <=? c) && (c <=? 0x9FFF))%N.

Definition hangul_syllable (c : char) : bool :=
  ((0xAC00 <=? c) && (c <=? 0xD7A3))%N.

Definition arabic_letter (c : char) : bool :=
  ((0x620 <=? c) && (c <=? 0x63F) || (0x641 <=? c) && (c <=? 0x64A))%N.

Definition thai_letter (c : char) : bool :=
  ((0xE01 <=? c) && (c <=? 0xE3A))%N.

(** [DerivedCoreProperties.txt], [PropList.txt] and [Scripts.txt] on Basic
    Latin, the CJK Unified Ideographs block, the Hangul syllables and the
    Arabic and Thai letters, with the long names and ISO 15924 codes of the
    five scripts as [PropertyValueAliases.txt] lists them. Language codes
    are not script names. The excerpt knows no other block, script or
    spelling of a script name. *)
Definition excerpt_properties : regex_db :=
  {| Alphabetic := fun c =>
       basic_latin_letter c || cjk_unified_ideograph c
       || hangul_syllable c || arabic_letter c || thai_letter c;
     White_Space := fun c =>
       ((0x09 <=? c) && (c <=? 0x0D) || (c =? 0x20) || (c =? 0x85)
        || (c =? 0xA0) || (c =? 0x1680) || (0x2000 <=? c) && (c <=? 0x200A)
        || (c =? 0x2028) || (c =? 0x2029) || (c =? 0x202F) || (c =? 0x205F)
        || (c =? 0x3000))%N;
     Script := fun name =>
       if (String.eqb name "Han" || String.eqb name "Hani")%string
       then Some cjk_unified_ideograph
       else if (String.eqb name "Latin" || String.eqb name "Latn")%string
       then Some basic_latin_letter
       else if (String.eqb name "Hangul" || String.eqb name "Hang")%string
       then Some hangul_syllable
       else if (String.eqb name "Arabic" || String.eqb name "Arab")%string
       then Some arabic_letter
       else if String.eqb name "Thai" then Some thai_letter
       else None |}.

(** The two pairs of the specification's example, as code points:
    U+4F60 U+597D U+4E16 U+754C, and U+4F60 U+597D followed by "world". *)
Definition nihao_shijie : str := [0x4F60; 0x597D; 0x4E16; 0x754C]%N.
Definition nihao_world : str := [0x4F60; 0x597D]%N ++ lit "world".

(** Modelled from the spec: [yimt.corpus.utils] is not among the sources;
    its [is_ascii_char], [is_ascii] and [has_zh] are the "ASCII check" and
    "CJK Unified Ideograph" detection of the specification. The language
    detector and the similarity ratio are stand-ins; no property below
    depends on what they return. *)
Definition sample_externals : externals :=
  {| is_ascii_char := is_ascii_cp;
     is_ascii := forallb is_ascii_cp;
     has_zh := existsb cjk_unified_ideograph;
     detect_lang := fun _ => "en"%string;
     SequenceMatcher_ratio := fun _ _ => Qmake 0 1;
     cases := latin1_cases;
     properties := excerpt_properties |}.

(** ** Invariants of the intermediate strings of [SpaceNormalizer] *)

(** The string starts with a whitespace code point. *)
Definition head_space (s : str) : bool :=
  match s with
  | d :: _ => isspace d
  | [] => false
  end.

(** No two neighbours are both whitespace. *)
Fixpoint ws_pair_free (s : str) : bool :=
  match s with
  | [] => true
  | c :: rest => negb (isspace c && head_space rest) && ws_pair_free rest
  end.

(** The string does not end with a whitespace code point. *)
Fixpoint no_trailing_ws (s : str) : bool :=
  match s with
  | [] => true
  | c :: rest =>
      match rest with
      | [] => negb (isspace c)
      | _ => no_trailing_ws rest
      end
  end.

(** Neither U+3000 nor U+00A0. *)
Definition plain (c : char) : bool :=
  (negb (c =? 0x3000) && negb (c =? 0xA0))%N.

Record canonical (s : str) : Prop := {
  canonical_head : head_space s = false;
  canonical_last : no_trailing_ws s = true;
  canonical_plain : forallb plain s = true;
  canonical_pairs : ws_pair_free s = true
}.

(** Every space left in the string has ASCII neighbours: the loop of
    [SpaceNormalizer.normalize] keeps all of it. *)
Fixpoint settled (is_ascii_char : char -> bool) (prev : option char)
  (s : str) : bool :=
  match s with
  | [] => true
  | c :: rest =>
      negb ((c =? space)%N
            && (match prev with
                | Some p => negb (is_ascii_char p)
                | None => false
                end
                || match rest with
                   | n :: _ => negb (is_ascii_char n)
                   | [] => false
                   end))
      && settled is_ascii_char (Some c) rest
  end.

(** ** What one scan of [normalize_pair_punct] does after the collapse *)

(** The first opening bracket is deleted when no closing bracket follows
    it; nothing else changes. *)
Inductive open_scan (l r : char) : str -> str -> Prop :=
| open_absent (t : str) :
    ~ In l t -> open_scan l r t t
| open_matched (pre post : str) :
    ~ In l pre -> In r post ->
    open_scan l r (pre ++ l :: post) (pre ++ l :: post)
| open_deleted (pre post : str) :
    ~ In l pre -> ~ In r post ->
    open_scan l r (pre ++ l :: post) (pre ++ post).

(** The first closing bracket is deleted when no opening bracket precedes
    it; nothing else changes. *)
Inductive close_scan (l r : char) : str -> str -> Prop :=
| close_absent (t : str) :
    ~ In r t -> close_scan l r t t
| close_matched (pre post : str) :
    ~ In r pre -> In l pre ->
    close_scan l r (pre ++ r :: post) (pre ++ r :: post)
| close_deleted (pre post : str) :
    ~ In r pre -> ~ In l pre ->
    close_scan l r (pre ++ r :: post) (pre ++ post).

(** No two neighbours are both [c]. *)
Fixpoint adjacent_free (c : char) (s : str) : bool :=
  match s with
  | [] => true
  | x :: rest =>
      negb ((x =? c)%N
            && match rest with
               | y :: _ => (y =? c)%N
               | [] => false
               end)
      && adjacent_free c rest
  end.

(** The string holds a character that is not whitespace. *)
Definition has_ink (s : str) : bool :=
  existsb (fun c => negb (isspace c)) s.

(** The character is one of the brackets of [punct_pairs]. *)
Definition is_punct (c : char) : bool :=
  existsb (fun p => (c =? fst p)%N || (c =? snd p)%N) punct_pairs.

(** ** Characters whose upper case lowers back *)

Definition capital_sigma : char := 0x3A3%N.

(** [c.upper().lower() == c.lower()] by the full case mappings, for a
    character whose lower case does not depend on its neighbours: [c] is
    not the Greek capital sigma and its upper case does not hold it.
    Upper-casing keeps whitespace as it is and gives other characters a
    non-empty upper case free of whitespace. *)
Definition round_trips (db : case_db) (c : char) : bool :=
  let up := ToUpperFull db c in
  negb (c =? capital_sigma)%N
  && forallb (fun u => negb (u =? capital_sigma)%N) up
  && str_eqb (flat_map (ToLowerFull db) up) (ToLowerFull db c)
  && (if isspace c then str_eqb up [c]
      else negb (str_eqb up []) && forallb (fun u => negb (isspace u)) up).

(** On ASCII the case tables give the ASCII mappings, as the Unicode
    tables do. *)
Definition ascii_consistent (db : case_db) : Prop :=
  forall c, is_ascii_cp c = true ->
    ToUpperFull db c = [ascii_upper c] /\ ToLowerFull db c = [ascii_lower c].

(** ** Conditions named by the specification *)

(** [a <= ratio * b and b <= ratio * a], as a proposition over [Q]. *)
Definition symmetric_ratio (ratio : Q) (a b : Z) : Prop :=
  (inject_Z a <= ratio * inject_Z b /\ inject_Z b <= ratio * inject_Z a)%Q.

(** The string is empty or holds whitespace only. *)
Definition blank (s : str) : Prop := forallb isspace s = true.

(** ** Proof automation *)

(** Case analysis on every test and every call that may raise. *)
Ltac keep_or_drop :=
  repeat match goal with
    | |- context [if ?b then _ else _] => destruct b
    | |- context [match ?r with Ok _ => _ | Raise _ => _ end] => destruct r
    end;
  simpl; intros; congruence.

(** Settles the comparisons of code points that the bounds in the context
    decide. *)
Ltac decide_comparisons :=
  repeat match goal with
    | |- context [(?a <=? ?b)%N] => destruct (N.leb_spec a b); try lia
    | |- context [(?a <? ?b)%N] => destruct (N.ltb_spec a b); try lia
    | |- context [(?a =? ?b)%N] => destruct (N.eqb_spec a b); try lia
    end.

(* ================================================================== *)
(** * Properties *)
(* ================================================================== *)

Unset Implicit Arguments.

(** ** Stripping *)

Lemma lstrip_all_space (s : str) :
  forallb isspace (lstrip s) = forallb isspace s.
Proof.
  induction s as [|c s IH]; simpl; [reflexivity|].
  destruct (isspace c) eqn:E; simpl; [exact IH | now rewrite E].
Qed.

Lemma rstrip_nil_iff (s : str) :
  rstrip s = [] <-> forallb isspace s = true.
Proof.
  induction s as [|c s IH]; simpl; [tauto|].
  destruct (rstrip s) as [|k ks] eqn:E.
  - destruct (isspace c); simpl.
    + split; intros _; [now apply IH | reflexivity].
    + split; discriminate.
  - split; [discriminate|].
    rewrite andb_true_iff. intros [_ H]. apply IH in H. discriminate.
Qed.

Lemma strip_nil_iff (s : str) :
  strip s = [] <-> forallb isspace s = true.
Proof.
  unfold strip. rewrite rstrip_nil_iff. now rewrite lstrip_all_space.
Qed.

Lemma len_zero_iff (s : str) : (len s =? 0)%Z = true <-> s = [].
Proof.
  unfold len. destruct s as [|c s]; simpl List.length.
  - split; reflexivity.
  - split; [|discriminate]. intros H. apply Z.eqb_eq in H. lia.
Qed.

(** ** EmptyFilter *)

(** C4. [EmptyFilter.filter(src, tgt)] is [None] exactly when [src.strip()]
    or [tgt.strip()] is empty, that is when one side holds whitespace only;
    in every other case it is the pair [(src, tgt)]. *)
Theorem EmptyFilter_none_iff (src tgt : str) :
  (EmptyFilter.filter src tgt = None
   <-> strip src = [] \/ strip tgt = [])
  /\ (strip src = [] \/ strip tgt = []
      <-> forallb isspace src = true \/ forallb isspace tgt = true)
  /\ (EmptyFilter.filter src tgt = None
      \/ EmptyFilter.filter src tgt = Some (src, tgt)).
Proof.
  unfold EmptyFilter.filter.
  rewrite <- !strip_nil_iff, <- !len_zero_iff.
  destruct (len (strip src) =? 0)%Z, (len (strip tgt) =? 0)%Z; simpl;
    repeat split; auto; try tauto; intros H; try discriminate;
    destruct H; discriminate.
Qed.

(** ** Length-ratio filters *)

Lemma within_ratio_iff (ratio : Q) (a b : Z) :
  within_ratio ratio a b = true <-> symmetric_ratio ratio a b.
Proof.
  unfold within_ratio, symmetric_ratio.
  rewrite andb_true_iff, !Qle_bool_iff. tauto.
Qed.

Lemma LenDiffFilter_filter_iff (self : LenDiffFilter.t) (src tgt : str) :
  let a := LenDiffFilter.src_len_fn self src in
  let b := LenDiffFilter.tgt_len_fn self tgt in
  (LenDiffFilter.filter self src tgt = Some (src, tgt)
   <-> symmetric_ratio (LenDiffFilter.ratio self) a b)
  /\ (LenDiffFilter.filter self src tgt = None
      <-> ~ symmetric_ratio (LenDiffFilter.ratio self) a b).
Proof.
  intros a b. unfold LenDiffFilter.filter. fold a b.
  rewrite <- within_ratio_iff.
  destruct (within_ratio _ a b); split; split; intros H;
    try reflexivity; try discriminate; congruence.
Qed.

Lemma LengthFilter_filter_iff (self : LengthFilter.t) (src tgt : str) :
  let a := LengthFilter.src_len_fn self src in
  let b := LengthFilter.tgt_len_fn self tgt in
  LengthFilter.filter self src tgt = Some (src, tgt)
  <-> LengthFilter.out_of_bounds self a b = false
      /\ symmetric_ratio (LengthFilter.ratio self) a b.
Proof.
  intros a b. unfold LengthFilter.filter, LengthFilter.out_of_bounds.
  fold a b. rewrite <- within_ratio_iff.
  destruct (set_and (LengthFilter.src_min_len self) _),
    (set_and (LengthFilter.src_max_len self) _),
    (set_and (LengthFilter.tgt_min_len self) _),
    (set_and (LengthFilter.tgt_max_len self) _); simpl;
    try (split; [discriminate | intros [H _]; discriminate]).
  destruct (within_ratio _ a b); split; try tauto; try discriminate.
  intros [_ H]. discriminate.
Qed.

(** C3. For a ratio in (0, 1], [LenDiffFilter(ratio).filter(src, tgt)]
    returns the pair exactly when [len(src) <= ratio * len(tgt)] and
    [len(tgt) <= ratio * len(src)], and [None] otherwise; the ratio test of
    [LengthFilter] is the same symmetric condition, applied once the four
    bound tests have passed. *)
Theorem LenDiffFilter_keeps_iff (ratio : Q) (src tgt : str) :
  (0 < ratio)%Q -> (ratio <= 1)%Q ->
  (LenDiffFilter.filter (LenDiffFilter.init ratio) src tgt = Some (src, tgt)
   <-> symmetric_ratio ratio (len src) (len tgt))
  /\ (LenDiffFilter.filter (LenDiffFilter.init ratio) src tgt = None
      <-> ~ symmetric_ratio ratio (len src) (len tgt))
  /\ (LengthFilter.filter (LengthFilter.init ratio) src tgt = Some (src, tgt)
      <-> symmetric_ratio ratio (len src) (len tgt))
  /\ (forall self : LengthFilter.t,
        LengthFilter.ratio self = ratio ->
        LengthFilter.filter self src tgt = Some (src, tgt)
        <-> LengthFilter.out_of_bounds self
              (LengthFilter.src_len_fn self src)
              (LengthFilter.tgt_len_fn self tgt) = false
            /\ symmetric_ratio ratio
                 (LengthFilter.src_len_fn self src)
                 (LengthFilter.tgt_len_fn self tgt)).
Proof.
  intros _ _.
  pose proof (LenDiffFilter_filter_iff (LenDiffFilter.init ratio) src tgt)
    as [Hkeep Hdrop].
  split; [exact Hkeep|]. split; [exact Hdrop|]. split.
  - rewrite LengthFilter_filter_iff. simpl. tauto.
  - intros self Hratio. rewrite LengthFilter_filter_iff, Hratio. tauto.
Qed.

(** The specification's example: ratio 0.5, "ab" against "abcdefgh". *)
Lemma LenDiffFilter_keeps_iff_witness :
  (0 < 1 # 2)%Q /\ (1 # 2 <= 1)%Q
  /\ LenDiffFilter.filter (LenDiffFilter.init (1 # 2))
       (lit "ab") (lit "abcdefgh") = None.
Proof.
  split; [reflexivity|]. split; [discriminate|].
  apply (LenDiffFilter_keeps_iff (1 # 2) (lit "ab") (lit "abcdefgh")).
  - reflexivity.
  - discriminate.
  - intros [_ H]. vm_compute in H. now apply H.
Defined.

(** With a ratio of at most 1 the symmetric condition leaves only pairs of
    equal length, and below 1 only pairs of two empty sides. *)
Lemma symmetric_ratio_le_1 (ratio : Q) (a b : Z) :
  (0 < ratio)%Q -> (ratio <= 1)%Q -> (0 <= a)%Z -> (0 <= b)%Z ->
  symmetric_ratio ratio a b -> a = b /\ (a = 0%Z \/ ratio == 1)%Q.
Proof.
  unfold symmetric_ratio. destruct ratio as [n d].
  unfold Qlt, Qle, Qeq, Qmult, inject_Z. simpl.
  intros Hn Hd Ha Hb [H1 H2].
  assert (Hnd : (n <= Z.pos d)%Z) by lia.
  assert (a = b) by nia. subst b. split; [reflexivity|].
  destruct (Z.eq_dec a 0); [now left | right]. nia.
Qed.

Lemma LenDiffFilter_keeps_equal_lengths (ratio : Q) (src tgt : str) :
  (0 < ratio)%Q -> (ratio <= 1)%Q ->
  LenDiffFilter.filter (LenDiffFilter.init ratio) src tgt = Some (src, tgt) ->
  len src = len tgt /\ (len src = 0%Z \/ ratio == 1)%Q.
Proof.
  intros Hpos Hle H.
  apply (LenDiffFilter_filter_iff (LenDiffFilter.init ratio)) in H.
  apply (symmetric_ratio_le_1 ratio); trivial; unfold len; lia.
Qed.

(** ** Ratio filters on an empty side *)

Lemma truediv_ok_iff (a b : Z) :
  (exists q, truediv a b = Ok q) <-> b <> 0%Z.
Proof.
  unfold truediv. destruct (Z.eqb_spec b 0) as [->|Hb].
  - split; [intros [q H]; discriminate | congruence].
  - split; [trivial | eauto].
Qed.

Lemma sub_class_all (class : char -> bool) (s : str) :
  forallb class s = true -> sub_class class s = [].
Proof.
  unfold sub_class. induction s as [|c s IH]; simpl; [reflexivity|].
  rewrite andb_true_iff. intros [Hc Hs]. rewrite Hc. simpl. now apply IH.
Qed.

(** C1. Neither filter guards its division: [ASCIIRatioFilter.filter]
    raises [ZeroDivisionError] on an empty side it is configured to test
    (with the default configuration, on an empty target), and
    [AlphabetRatioFilter.filter] raises it on an empty source, and on a
    source of whitespace only when whitespace is excluded. The sibling
    [CharacterRatioFilter.score] does guard, returning 0 for a string with
    no alphabetic character. *)
Theorem ratio_filters_divide_by_zero :
  (forall is_ascii_char src,
      ASCIIRatioFilter.filter is_ascii_char ASCIIRatioFilter.default src []
      = Raise ZeroDivisionError)
  /\ (forall is_ascii_char self tgt,
        ASCIIRatioFilter._filter_src self = true ->
        ASCIIRatioFilter.filter is_ascii_char self [] tgt
        = Raise ZeroDivisionError)
  /\ (forall db self tgt,
        AlphabetRatioFilter.filter db self [] tgt = Raise ZeroDivisionError)
  /\ (forall db self src tgt,
        AlphabetRatioFilter.exclude_whitespace self = true ->
        forallb (White_Space db) src = true ->
        AlphabetRatioFilter.filter db self src tgt = Raise ZeroDivisionError)
  /\ (forall db self idx,
        CharacterRatioFilter.score db self [] idx = Ok (Qmake 0 1)).
Proof.
  split; [reflexivity|]. split.
  { intros is_ascii_char self tgt Hsrc.
    unfold ASCIIRatioFilter.filter, ASCIIRatioFilter.too_ascii.
    now rewrite Hsrc. }
  split.
  { intros db self tgt. unfold AlphabetRatioFilter.filter.
    unfold AlphabetRatioFilter.score.
    now destruct (AlphabetRatioFilter.exclude_whitespace self). }
  split; [|reflexivity].
  intros db self src tgt Hex Hws.
  unfold AlphabetRatioFilter.filter, AlphabetRatioFilter.score.
  rewrite Hex, (sub_class_all _ _ Hws). reflexivity.
Qed.

(** ** Filters keep or discard, they never rewrite *)

(** C9. Whatever concrete filter is called, when the call returns and does
    not reject, the value returned is the input pair [(src, tgt)] itself. *)
Theorem Filter_filter_keeps_pair (ext : externals) (f : Filter)
  (src tgt : str) (p : pair) :
  Filter_filter ext f src tgt = Ok (Some p) -> p = (src, tgt).
Proof.
  destruct f as [f|f|f| | |f|f|f|f|f|f|f|f| ]; simpl.
  - unfold SameFilter.filter. keep_or_drop.
  - unfold HasZhFilter.filter. keep_or_drop.
  - unfold OverlapFilter.filter. keep_or_drop.
  - unfold EmptyFilter.filter. keep_or_drop.
  - unfold AllASCII.filter. keep_or_drop.
  - unfold ASCIIRatioFilter.filter, bind. keep_or_drop.
  - unfold LangFilter.filter. keep_or_drop.
  - unfold LenFilter.filter. keep_or_drop.
  - unfold LenDiffFilter.filter. keep_or_drop.
  - unfold LengthFilter.filter. keep_or_drop.
  - unfold LongWordFilter.filter, bind.
    destruct (LongWordFilter.src_max_len f), (LongWordFilter.tgt_max_len f);
      keep_or_drop.
  - unfold AlphabetRatioFilter.filter, bind. keep_or_drop.
  - unfold CharacterRatioFilter.filter, bind. keep_or_drop.
  - unfold AugumentForZhFilter.filter. keep_or_drop.
Qed.

Lemma Filter_filter_keeps_pair_witness :
  Filter_filter sample_externals (LenDiff (LenDiffFilter.init (Qmake 1 1)))
    (lit "hello") (lit "world") = Ok (Some (lit "hello", lit "world"))
  /\ (lit "hello", lit "world") = (lit "hello", lit "world").
Proof.
  split; [reflexivity|].
  apply (Filter_filter_keeps_pair sample_externals
           (LenDiff (LenDiffFilter.init (Qmake 1 1)))).
  reflexivity.
Defined.

(** ** LongWordFilter *)

Lemma runs_from_nil_iff (keep : char -> bool) (word s : str) :
  runs_from keep word s = []
  <-> word = [] /\ forallb (fun c => negb (keep c)) s = true.
Proof.
  revert word. induction s as [|c s IH]; intros word; simpl.
  - destruct word; split; try tauto; try discriminate.
    intros [H _]. discriminate.
  - destruct (keep c); simpl.
    + rewrite IH. split; [intros [H _]; discriminate | intros [_ H]; discriminate].
    + destruct word as [|w word].
      * rewrite IH. tauto.
      * split; [discriminate | intros [H _]; discriminate].
Qed.

Lemma split_nil_iff (s : str) : split s = [] <-> blank s.
Proof.
  unfold split, blank. rewrite runs_from_nil_iff.
  assert (E : forallb (fun c => negb (negb (isspace c))) s
              = forallb isspace s).
  { induction s as [|c s IH]; simpl; [reflexivity|].
    now rewrite negb_involutive, IH. }
  rewrite E. tauto.
Qed.

Lemma too_long_blank (m : Z) (s : str) :
  blank s -> LongWordFilter.too_long (Some m) s = Raise ValueError.
Proof.
  intros H. apply split_nil_iff in H. unfold LongWordFilter.too_long.
  now rewrite H.
Qed.

Lemma too_long_total (bound : option Z) (s : str) :
  (bound <> None -> split s <> []) ->
  exists b, LongWordFilter.too_long bound s = Ok b.
Proof.
  intros H. destruct bound as [m|]; simpl; [|eauto].
  destruct (split s) as [|w ws] eqn:E; [now elim H | simpl; eauto].
Qed.

(** C10, as the code has it. [LongWordFilter.filter] raises [ValueError]
    (the maximum of an empty token list) whenever the source maximum is set
    and the source is blank. On the target side it raises when the target
    maximum is set and the target is blank, provided the source test has
    neither rejected the pair nor failed first. When each side with a
    configured maximum holds at least one token the call returns a
    decision: [None] or the pair. *)
Theorem LongWordFilter_partial (self : LongWordFilter.t) (src tgt : str) :
  (forall m, LongWordFilter.src_max_len self = Some m -> blank src ->
             LongWordFilter.filter self src tgt = Raise ValueError)
  /\ (forall m, LongWordFilter.tgt_max_len self = Some m -> blank tgt ->
                LongWordFilter.too_long (LongWordFilter.src_max_len self) src
                = Ok false ->
                LongWordFilter.filter self src tgt = Raise ValueError)
  /\ ((LongWordFilter.src_max_len self <> None -> split src <> []) ->
      (LongWordFilter.tgt_max_len self <> None -> split tgt <> []) ->
      LongWordFilter.filter self src tgt = Ok None
      \/ LongWordFilter.filter self src tgt = Ok (Some (src, tgt))).
Proof.
  unfold LongWordFilter.filter. split; [|split].
  - intros m Hm Hblank. rewrite Hm, (too_long_blank m _ Hblank).
    now destruct (LongWordFilter.tgt_max_len self).
  - intros m Hm Hblank Hsrc. rewrite Hm, Hsrc, (too_long_blank m _ Hblank).
    now destruct (LongWordFilter.src_max_len self).
  - intros Hs Ht.
    destruct (too_long_total _ _ Hs) as [bs Es].
    destruct (too_long_total _ _ Ht) as [bt Et].
    rewrite Es, Et.
    destruct (LongWordFilter.src_max_len self),
      (LongWordFilter.tgt_max_len self), bs, bt; simpl; auto.
Qed.

(** The target maximum is set and the target is empty, yet the call
    returns [None]: the source holds a word that is too long, and the
    target is never split. *)
Lemma LongWordFilter_target_not_reached :
  blank []
  /\ LongWordFilter.filter
       {| LongWordFilter.src_max_len := Some 1%Z;
          LongWordFilter.tgt_max_len := Some 1%Z |}
       (lit "abc") []
     = Ok None.
Proof. split; reflexivity. Qed.

(** ** Pair-aware normalizers on a line with no tab *)

Lemma split_on_absent (sep : char) (s : str) :
  ~ In sep s -> split_on sep s = [s].
Proof.
  induction s as [|c s IH]; simpl; [reflexivity|].
  intros H. destruct (N.eqb_spec c sep) as [->|_].
  - elim H. now left.
  - rewrite IH; [reflexivity | tauto].
Qed.

Lemma split_on_length (sep : char) (s : str) :
  List.length (split_on sep s)
  = S (List.length (List.filter (N.eqb sep) s)).
Proof.
  induction s as [|c s IH]; simpl; [reflexivity|].
  rewrite (N.eqb_sym sep c). destruct (c =? sep)%N; simpl.
  - now rewrite IH.
  - destruct (split_on sep s); simpl in *; [discriminate | exact IH].
Qed.

(** What [Hant2Hans.normalize] does on a line that does not split into
    exactly two fields: the line is printed and returned unchanged. *)
Lemma Hant2Hans_malformed_unchanged (hant_2_hans : str -> str)
  (self : Hant2Hans.t) (s : str) :
  List.length (split_on tab s) <> 2%nat ->
  Hant2Hans.returned (Hant2Hans.normalize hant_2_hans self s) = s.
Proof.
  intros H. unfold Hant2Hans.normalize.
  destruct (negb (Hant2Hans.norm_src self) && negb (Hant2Hans.norm_tgt self));
    [reflexivity|].
  destruct (split_on tab s) as [|a [|b [|c rest]]]; try reflexivity.
  now elim H.
Qed.

(** C2. On a line with no tab [PairPunctNormalizer.normalize] does not
    return the line: reading [pair[1]] raises [IndexError]. *)
Theorem PairPunctNormalizer_no_tab_raises (s : str) :
  ~ In tab s -> PairPunctNormalizer.normalize s = Raise IndexError.
Proof.
  intros H. unfold PairPunctNormalizer.normalize.
  now rewrite (split_on_absent tab s H).
Qed.

Lemma PairPunctNormalizer_no_tab_raises_witness :
  ~ In tab (lit "hello")
  /\ PairPunctNormalizer.normalize (lit "hello") = Raise IndexError.
Proof.
  assert (H : ~ In tab (lit "hello")).
  { intros H. vm_compute in H. intuition discriminate. }
  split; [exact H|].
  exact (PairPunctNormalizer_no_tab_raises (lit "hello") H).
Defined.

(** With three fields the call returns, and drops the third field. *)
Example PairPunctNormalizer_three_fields :
  PairPunctNormalizer.normalize (lit "a" ++ [tab] ++ lit "b" ++ [tab] ++ lit "c")
  = Ok (lit "a" ++ [tab] ++ lit "b").
Proof. reflexivity. Qed.

(** ** SameFilter on a source and its upper case *)

Lemma ascii_upper_isspace (c : char) : isspace (ascii_upper c) = isspace c.
Proof.
  unfold ascii_upper.
  destruct (N.leb_spec 0x61 c); [|reflexivity].
  destruct (N.leb_spec c 0x7A); [|reflexivity]. simpl.
  unfold isspace. decide_comparisons; reflexivity.
Qed.

Lemma ascii_upper_is_ascii (c : char) :
  is_ascii_cp (ascii_upper c) = is_ascii_cp c.
Proof.
  unfold ascii_upper, is_ascii_cp.
  destruct (N.leb_spec 0x61 c); simpl; [|reflexivity].
  destruct (N.leb_spec c 0x7A); simpl; [|reflexivity].
  decide_comparisons; reflexivity.
Qed.

Lemma ascii_lower_upper (c : char) :
  ascii_lower (ascii_upper c) = ascii_lower c.
Proof.
  unfold ascii_upper.
  destruct (N.leb_spec 0x61 c); simpl; [|reflexivity].
  destruct (N.leb_spec c 0x7A); simpl; [|reflexivity].
  unfold ascii_lower. decide_comparisons; simpl; lia.
Qed.

Section StripMap.
Variable f : char -> char.
Hypothesis f_isspace : forall c, isspace (f c) = isspace c.

Lemma lstrip_map (s : str) : lstrip (map f s) = map f (lstrip s).
Proof.
  induction s as [|c s IH]; simpl; [reflexivity|].
  rewrite f_isspace. now destruct (isspace c).
Qed.

Lemma rstrip_map (s : str) : rstrip (map f s) = map f (rstrip s).
Proof.
  induction s as [|c s IH]; simpl; [reflexivity|].
  rewrite IH, f_isspace.
  destruct (rstrip s); simpl; [now destruct (isspace c) | reflexivity].
Qed.

Lemma strip_map (s : str) : strip (map f s) = map f (strip s).
Proof. unfold strip. now rewrite lstrip_map, rstrip_map. Qed.

End StripMap.

Section StripKeeps.
Variable p : char -> bool.

Lemma lstrip_forallb (s : str) :
  forallb p s = true -> forallb p (lstrip s) = true.
Proof.
  induction s as [|c s IH]; simpl; [trivial|].
  intros H. destruct (isspace c); [|exact H].
  apply andb_true_iff in H. now apply IH.
Qed.

Lemma rstrip_forallb (s : str) :
  forallb p s = true -> forallb p (rstrip s) = true.
Proof.
  induction s as [|c s IH]; simpl; [trivial|].
  rewrite andb_true_iff. intros [Hc Hs]. specialize (IH Hs).
  destruct (rstrip s) as [|k ks].
  - destruct (isspace c); simpl; [reflexivity | now rewrite Hc].
  - change (forallb p (c :: k :: ks) = true). simpl forallb at 1.
    now rewrite Hc.
Qed.

Lemma strip_forallb (s : str) :
  forallb p s = true -> forallb p (strip s) = true.
Proof. intros H. now apply rstrip_forallb, lstrip_forallb. Qed.

End StripKeeps.

Lemma str_eqb_refl (s : str) : str_eqb s s = true.
Proof. induction s as [|c s IH]; simpl; [|rewrite N.eqb_refl]; auto. Qed.

Lemma str_eqb_eq (a b : str) : str_eqb a b = true <-> a = b.
Proof.
  revert b. induction a as [|x a IH]; intros [|y b]; simpl;
    try (split; intros H; (reflexivity || discriminate)).
  rewrite andb_true_iff, N.eqb_eq, IH. split.
  - intros [-> ->]. reflexivity.
  - intros H. injection H. auto.
Qed.

Lemma upper_ascii (db : case_db) (s : str) :
  forallb is_ascii_cp s = true -> upper db s = map ascii_upper s.
Proof. intros H. unfold upper. now rewrite H. Qed.

Lemma lower_ascii (db : case_db) (s : str) :
  forallb is_ascii_cp s = true -> lower db s = map ascii_lower s.
Proof. intros H. unfold lower. now rewrite H. Qed.

Lemma map_ascii_upper_is_ascii (s : str) :
  forallb is_ascii_cp (map ascii_upper s) = forallb is_ascii_cp s.
Proof.
  induction s as [|c s IH]; simpl; [reflexivity|].
  now rewrite ascii_upper_is_ascii, IH.
Qed.

(** When every code point of [src] is ASCII,
    [SameFilter(lower=True).filter(src, src.upper())] is [None], whatever
    the case tables hold. *)
Lemma SameFilter_ascii_upper_rejected (db : case_db) (src : str) :
  forallb is_ascii_cp src = true ->
  SameFilter.filter db {| SameFilter._lower := true |} src (upper db src)
  = None.
Proof.
  intros Hascii. unfold SameFilter.filter. simpl.
  rewrite (upper_ascii db src Hascii).
  rewrite (strip_map ascii_upper ascii_upper_isspace).
  pose proof (strip_forallb is_ascii_cp src Hascii) as Hs.
  rewrite (lower_ascii db (strip src) Hs).
  rewrite lower_ascii by now rewrite map_ascii_upper_is_ascii.
  rewrite map_map.
  rewrite (map_ext _ _ ascii_lower_upper).
  now rewrite str_eqb_refl.
Qed.

(** The sharp s, U+00DF: its upper case is "SS", whose lower case "ss" is
    not the lower case of U+00DF, so the pair is kept. *)
Lemma SameFilter_sharp_s_kept :
  upper latin1_cases [0xDF%N] = lit "SS"
  /\ SameFilter.filter latin1_cases {| SameFilter._lower := true |}
       [0xDF%N] (upper latin1_cases [0xDF%N])
     = Some ([0xDF%N], lit "SS").
Proof. split; reflexivity. Qed.

(** ** CharacterRatioFilter and the language codes *)

(** C7, as the code has it. The constructor takes script names: built
    from the scripts [lang2script] gives for "zh" and "en" (Han and Latin)
    with thresholds [1, 1], the filter keeps the first pair of the example
    (both scores are 1) and rejects the second (the source scores 2/7). *)
Theorem CharacterRatioFilter_han_latin :
  map (CharacterRatioFilter.lookup CharacterRatioFilter.lang2script)
    ["zh"; "en"]%string
  = [Some "Han"; Some "Latin"]%string
  /\ exists f,
      CharacterRatioFilter.init excerpt_properties ["Han"; "Latin"]%string
        (Some [Qmake 1 1; Qmake 1 1]) = Ok f
      /\ CharacterRatioFilter.score excerpt_properties f nihao_shijie 0
         = Ok (Qmake 4 4)
      /\ CharacterRatioFilter.score excerpt_properties f (lit "hello world") 1
         = Ok (Qmake 10 10)
      /\ CharacterRatioFilter.filter excerpt_properties f
           nihao_shijie (lit "hello world")
         = Ok (Some (nihao_shijie, lit "hello world"))
      /\ CharacterRatioFilter.score excerpt_properties f nihao_world 0
         = Ok (Qmake 2 7)
      /\ CharacterRatioFilter.filter excerpt_properties f
           nihao_world (lit "hello")
         = Ok None.
Proof.
  split; [reflexivity|].
  eexists. split; [reflexivity|]. repeat split; reflexivity.
Qed.

(** The constructor does not consult [lang2script]: given the language
    codes themselves it asks [regex] for scripts named "zh" and "en", and
    the compilation fails. *)
Lemma CharacterRatioFilter_language_codes_refused :
  CharacterRatioFilter.init excerpt_properties ["zh"; "en"]%string
    (Some [Qmake 1 1; Qmake 1 1])
  = Raise RegexError.
Proof. reflexivity. Qed.

(** ** SpaceNormalizer and NoPrintNormalizer are idempotent *)

Lemma isspace_space : isspace space = true.
Proof. reflexivity. Qed.

Lemma plain_space : plain space = true.
Proof. reflexivity. Qed.

Lemma not_space (c : char) : isspace c = false -> (c =? space)%N = false.
Proof.
  intros H. destruct (N.eqb_spec c space) as [->|]; [|reflexivity].
  now rewrite isspace_space in H.
Qed.

(** *** Stripping *)

Lemma lstrip_head (s : str) : head_space (lstrip s) = false.
Proof.
  induction s as [|c s IH]; simpl; [reflexivity|].
  destruct (isspace c) eqn:E; [exact IH | exact E].
Qed.

Lemma lstrip_fixed (s : str) : head_space s = false -> lstrip s = s.
Proof. destruct s as [|c s]; simpl; [reflexivity|]. now intros ->. Qed.

Lemma rstrip_head (s : str) :
  head_space s = false -> head_space (rstrip s) = false.
Proof.
  destruct s as [|c s]; simpl; [reflexivity|]. intros E.
  destruct (rstrip s); simpl; [now rewrite E | exact E].
Qed.

Lemma rstrip_no_trailing (s : str) : no_trailing_ws (rstrip s) = true.
Proof.
  induction s as [|c s IH]; simpl; [reflexivity|].
  destruct (rstrip s) as [|k ks].
  - destruct (isspace c) eqn:E; simpl; [reflexivity | now rewrite E].
  - exact IH.
Qed.

Lemma rstrip_fixed (s : str) : no_trailing_ws s = true -> rstrip s = s.
Proof.
  induction s as [|c s IH]; simpl; [reflexivity|].
  destruct s as [|d s].
  - simpl. intros H. apply negb_true_iff in H. now rewrite H.
  - intros H. now rewrite (IH H).
Qed.

Lemma strip_fixed (s : str) :
  head_space s = false -> no_trailing_ws s = true -> strip s = s.
Proof.
  intros Hh Hl. unfold strip. now rewrite (lstrip_fixed s Hh), rstrip_fixed.
Qed.

Lemma rstrip_same_head (s : str) :
  head_space (rstrip s) = true -> head_space s = true.
Proof.
  destruct s as [|c s]; simpl; [trivial|].
  destruct (rstrip s); [|trivial].
  destruct (isspace c) eqn:E; simpl; [discriminate | now rewrite E].
Qed.

Lemma lstrip_pairs (s : str) :
  ws_pair_free s = true -> ws_pair_free (lstrip s) = true.
Proof.
  induction s as [|c s IH]; [trivial|].
  intros H. simpl lstrip. destruct (isspace c); [|exact H].
  simpl in H. apply andb_true_iff in H. now apply IH.
Qed.

Lemma rstrip_pairs (s : str) :
  ws_pair_free s = true -> ws_pair_free (rstrip s) = true.
Proof.
  induction s as [|c s IH]; [trivial|].
  simpl. rewrite andb_true_iff. intros [Hc Hs]. specialize (IH Hs).
  pose proof (rstrip_same_head s) as Hhead.
  destruct (rstrip s) as [|k ks].
  - destruct (isspace c); simpl; [reflexivity|].
    now rewrite andb_false_r.
  - change (ws_pair_free (c :: k :: ks))
      with (negb (isspace c && isspace k) && ws_pair_free (k :: ks)).
    rewrite IH, andb_true_r.
    destruct (isspace c); [|reflexivity]. simpl in *.
    destruct (isspace k); [|reflexivity].
    rewrite (Hhead eq_refl) in Hc. discriminate.
Qed.

(** *** The two replacements and the collapse of whitespace runs *)

Lemma replace_single (a b : char) (s : str) :
  replace [a] [b] s = map (fun c => if (a =? c)%N then b else c) s.
Proof.
  unfold replace. induction s as [|c s IH]; simpl; [reflexivity|].
  rewrite andb_true_r. destruct (a =? c)%N; simpl; now rewrite IH.
Qed.

Lemma replace_single_absent (a b : char) (s : str) :
  forallb (fun c => negb (c =? a)%N) s = true -> replace [a] [b] s = s.
Proof.
  rewrite replace_single. induction s as [|c s IH]; simpl; [reflexivity|].
  rewrite andb_true_iff, negb_true_iff, N.eqb_sym. intros [-> Hs].
  now rewrite (IH Hs).
Qed.

Lemma replaced_plain (s : str) :
  forallb plain (replace [0xA0%N] [space] (replace [0x3000%N] [space] s))
  = true.
Proof.
  rewrite !replace_single, map_map. apply forallb_forall.
  intros x Hx. apply in_map_iff in Hx as [c [<- _]].
  destruct (N.eqb_spec 0x3000 c) as [<-|H1]; [reflexivity|].
  destruct (N.eqb_spec 0xA0 c) as [<-|H2]; [reflexivity|].
  unfold plain. apply andb_true_iff. split; apply negb_true_iff, N.eqb_neq;
    congruence.
Qed.

Lemma plain_absent (s : str) :
  forallb plain s = true ->
  forallb (fun c => negb (c =? 0x3000)%N) s = true
  /\ forallb (fun c => negb (c =? 0xA0)%N) s = true.
Proof.
  induction s as [|c s IH]; simpl; [now split|].
  unfold plain at 1. rewrite !andb_true_iff.
  intros [[H1 H2] Hs]. destruct (IH Hs). now rewrite H1, H2.
Qed.

Lemma sub_space_runs_head (s : str) :
  head_space (SpaceNormalizer.sub_space_runs true s) = false.
Proof.
  induction s as [|c s IH]; simpl; [reflexivity|].
  destruct (isspace c) eqn:E; [exact IH | exact E].
Qed.

Lemma sub_space_runs_pairs (in_run : bool) (s : str) :
  ws_pair_free (SpaceNormalizer.sub_space_runs in_run s) = true.
Proof.
  revert in_run. induction s as [|c s IH]; intros in_run; [reflexivity|].
  simpl. destruct (isspace c) eqn:Ec.
  - destruct in_run; [apply IH|].
    destruct s as [|d s]; [simpl; now rewrite Ec|].
    destruct (isspace d) eqn:Ed.
    + change (ws_pair_free (space :: ?x))
        with (negb (isspace space && head_space x) && ws_pair_free x).
      now rewrite sub_space_runs_head, IH.
    + change (ws_pair_free (c :: ?x))
        with (negb (isspace c && head_space x) && ws_pair_free x).
      rewrite IH, andb_true_r. simpl SpaceNormalizer.sub_space_runs.
      rewrite Ed. simpl. now rewrite Ed, andb_false_r.
  - change (ws_pair_free (c :: ?x))
      with (negb (isspace c && head_space x) && ws_pair_free x).
    now rewrite Ec, IH.
Qed.

Lemma sub_space_runs_forallb (q : char -> bool) (in_run : bool) (s : str) :
  q space = true -> forallb q s = true ->
  forallb q (SpaceNormalizer.sub_space_runs in_run s) = true.
Proof.
  intros Hq. revert in_run.
  induction s as [|c s IH]; intros in_run; [reflexivity|].
  intros H. simpl in H. apply andb_true_iff in H as [Hc Hs].
  simpl. destruct (isspace c).
  - destruct in_run; [now apply IH|].
    destruct s as [|d s]; [simpl; now rewrite Hc|].
    destruct (isspace d).
    + change (forallb q (space :: ?x)) with (q space && forallb q x).
      rewrite Hq. now apply IH.
    + change (forallb q (c :: ?x)) with (q c && forallb q x).
      rewrite Hc. now apply IH.
  - change (forallb q (c :: ?x)) with (q c && forallb q x).
    rewrite Hc. now apply IH.
Qed.

Lemma sub_space_runs_fixed (s : str) :
  ws_pair_free s = true -> SpaceNormalizer.sub_space_runs false s = s.
Proof.
  induction s as [|c s IH]; [reflexivity|].
  simpl. rewrite andb_true_iff. intros [Hc Hs]. rewrite (IH Hs).
  destruct (isspace c); [|reflexivity].
  destruct s as [|d s]; [reflexivity|].
  simpl in Hc. now destruct (isspace d).
Qed.

(** *** The loop that drops spaces next to non-ASCII code points *)

Section DropSpaces.
Variable is_ascii_char : char -> bool.

Local Abbreviation D := (SpaceNormalizer.drop_spaces is_ascii_char).

Lemma drop_spaces_keeps_head (p : option char) (d : char) (r : str) :
  isspace d = false -> D p (d :: r) = d :: D (Some d) r.
Proof. intros H. simpl. now rewrite (not_space d H). Qed.

Lemma drop_spaces_cons (p : option char) (c : char) (rest : str) :
  D p (c :: rest) = D (Some c) rest
  \/ D p (c :: rest) = c :: D (Some c) rest.
Proof. simpl. destruct (_ && _); auto. Qed.

Lemma drop_spaces_head (p : option char) (t : str) :
  head_space t = false -> head_space (D p t) = false.
Proof.
  destruct t as [|d r]; [trivial|]. intros H. simpl in H.
  now rewrite (drop_spaces_keeps_head p d r H).
Qed.

Lemma drop_spaces_same_head (p : option char) (c : char) (t : str) :
  head_space t = false ->
  match D p t with n :: _ => negb (is_ascii_char n) | [] => false end
  = match t with n :: _ => negb (is_ascii_char n) | [] => false end.
Proof.
  destruct t as [|d r]; [trivial|]. intros H. simpl in H.
  now rewrite (drop_spaces_keeps_head p d r H).
Qed.

Lemma drop_spaces_forallb (q : char -> bool) (p : option char) (t : str) :
  forallb q t = true -> forallb q (D p t) = true.
Proof.
  revert p. induction t as [|c t IH]; intros p; [trivial|].
  intros H. simpl in H. apply andb_true_iff in H as [Hc Ht].
  destruct (drop_spaces_cons p c t) as [-> | ->]; [now apply IH|].
  simpl. rewrite Hc. now apply IH.
Qed.

Lemma drop_spaces_pairs (p : option char) (t : str) :
  ws_pair_free t = true -> ws_pair_free (D p t) = true.
Proof.
  revert p. induction t as [|c t IH]; intros p; [trivial|].
  intros H. simpl in H. apply andb_true_iff in H as [Hc Ht].
  destruct (drop_spaces_cons p c t) as [-> | ->]; [now apply IH|].
  change (ws_pair_free (c :: ?x))
    with (negb (isspace c && head_space x) && ws_pair_free x).
  rewrite (IH (Some c) Ht), andb_true_r.
  destruct (isspace c); [|reflexivity]. simpl in Hc.
  apply negb_true_iff in Hc. now rewrite (drop_spaces_head (Some c) t Hc).
Qed.

Lemma drop_spaces_last (p : option char) (t : str) :
  no_trailing_ws t = true ->
  no_trailing_ws (D p t) = true /\ (t <> [] -> D p t <> []).
Proof.
  revert p. induction t as [|c t IH]; intros p; [now split|].
  destruct t as [|d r].
  - intros H. change (negb (isspace c) = true) in H.
    apply negb_true_iff in H.
    rewrite (drop_spaces_keeps_head p c [] H). simpl. rewrite H.
    split; [reflexivity | discriminate].
  - intros H. change (no_trailing_ws (d :: r) = true) in H.
    destruct (IH (Some c) H) as [Hlast Hne].
    assert (Hne' : D (Some c) (d :: r) <> []) by (apply Hne; discriminate).
    destruct (drop_spaces_cons p c (d :: r)) as [-> | ->].
    + split; [exact Hlast | intros _; exact Hne'].
    + split; [|discriminate].
      destruct (D (Some c) (d :: r)) as [|k ks]; [now elim Hne'|].
      exact Hlast.
Qed.

Lemma drop_spaces_settled (p p' : option char) (t : str) :
  ws_pair_free t = true ->
  (forall r, t = space :: r -> p' = p) ->
  settled is_ascii_char p' (D p t) = true.
Proof.
  revert p p'. induction t as [|c t IH]; intros p p' Hfree Hprev;
    [reflexivity|].
  simpl in Hfree. apply andb_true_iff in Hfree as [Hc Ht].
  simpl D.
  destruct (c =? space)%N eqn:Ec.
  - apply N.eqb_eq in Ec. subst c.
    rewrite isspace_space in Hc. simpl in Hc. apply negb_true_iff in Hc.
    rewrite (Hprev t eq_refl). simpl andb.
    destruct (_ || _) eqn:Edrop.
    + apply IH; [exact Ht|]. intros r ->. discriminate.
    + simpl settled.
      rewrite (drop_spaces_same_head (Some space) space t Hc), Edrop.
      simpl. apply IH; [exact Ht | trivial].
  - simpl andb. simpl settled. rewrite Ec. simpl.
    apply IH; [exact Ht | trivial].
Qed.

Lemma settled_fixed (p : option char) (u : str) :
  settled is_ascii_char p u = true -> D p u = u.
Proof.
  revert p. induction u as [|c u IH]; intros p; [reflexivity|].
  simpl. rewrite andb_true_iff, negb_true_iff. intros [-> Hu].
  now rewrite (IH _ Hu).
Qed.

(** *** The intermediate string is canonical, and stays so *)

Lemma strip_canonical (s : str) :
  forallb plain s = true -> ws_pair_free s = true -> canonical (strip s).
Proof.
  intros Hplain Hpairs. unfold strip. split.
  - apply rstrip_head, lstrip_head.
  - apply rstrip_no_trailing.
  - now apply rstrip_forallb, lstrip_forallb.
  - now apply rstrip_pairs, lstrip_pairs.
Qed.

Lemma canonical_fixed (u : str) :
  canonical u ->
  strip (SpaceNormalizer.sub_space_runs false
           (replace [0xA0%N] [space]
              (replace [0x3000%N] [space] (strip u))))
  = u.
Proof.
  intros [Hh Hl Hplain Hpairs].
  destruct (plain_absent u Hplain) as [H1 H2].
  rewrite (strip_fixed u Hh Hl).
  rewrite (replace_single_absent _ _ u H1).
  rewrite (replace_single_absent _ _ u H2).
  rewrite (sub_space_runs_fixed u Hpairs).
  exact (strip_fixed u Hh Hl).
Qed.

Lemma drop_spaces_canonical (t : str) :
  canonical t -> canonical (D None t).
Proof.
  intros [Hh Hl Hplain Hpairs]. split.
  - now apply drop_spaces_head.
  - now apply drop_spaces_last.
  - now apply drop_spaces_forallb.
  - now apply drop_spaces_pairs.
Qed.

Lemma SpaceNormalizer_idempotent (x : str) :
  SpaceNormalizer.normalize is_ascii_char
    (SpaceNormalizer.normalize is_ascii_char x)
  = SpaceNormalizer.normalize is_ascii_char x.
Proof.
  unfold SpaceNormalizer.normalize.
  set (t := strip (SpaceNormalizer.sub_space_runs false
                     (replace [0xA0%N] [space]
                        (replace [0x3000%N] [space] (strip x))))).
  assert (Ht : canonical t).
  { apply strip_canonical.
    - apply sub_space_runs_forallb; [reflexivity | apply replaced_plain].
    - apply sub_space_runs_pairs. }
  rewrite (canonical_fixed (D None t) (drop_spaces_canonical t Ht)).
  apply settled_fixed, drop_spaces_settled; [apply Ht | trivial].
Qed.

End DropSpaces.

Lemma NoPrintNormalizer_idempotent (x : str) :
  NoPrintNormalizer.normalize (NoPrintNormalizer.normalize x)
  = NoPrintNormalizer.normalize x.
Proof.
  unfold NoPrintNormalizer.normalize.
  induction x as [|c x IH]; simpl; [reflexivity|].
  destruct (NoPrintNormalizer.unprintable c) eqn:E; simpl; [exact IH|].
  now rewrite E, IH.
Qed.

(** C6. Both normalizers are idempotent on every string of code points:
    normalizing a second time changes nothing. For [SpaceNormalizer] this
    holds whatever [is_ascii_char] answers. *)
Theorem normalizers_idempotent :
  (forall (is_ascii_char : char -> bool) (x : str),
      SpaceNormalizer.normalize is_ascii_char
        (SpaceNormalizer.normalize is_ascii_char x)
      = SpaceNormalizer.normalize is_ascii_char x)
  /\ (forall x : str,
        NoPrintNormalizer.normalize (NoPrintNormalizer.normalize x)
        = NoPrintNormalizer.normalize x).
Proof.
  split; [exact SpaceNormalizer_idempotent | exact NoPrintNormalizer_idempotent].
Qed.

(** The specification's examples, with [is_ascii_char] the test
    [code point < 128]: "hello   world", U+4F60 U+597D space U+4E16 U+754C,
    and "a\x00b\x1fc". *)
Example SpaceNormalizer_examples :
  SpaceNormalizer.normalize is_ascii_cp (lit "hello   world")
  = lit "hello world"
  /\ SpaceNormalizer.normalize is_ascii_cp
       [0x4F60; 0x597D; 0x20; 0x4E16; 0x754C]%N
     = nihao_shijie
  /\ NoPrintNormalizer.normalize [0x61; 0x00; 0x62; 0x1F; 0x63]%N
     = lit "abc".
Proof. repeat split; reflexivity. Qed.

(** ** One scan of the pair-punctuation normalization *)

(** *** [find], slices and deletion, on positions *)

Lemma first_index_none (c : char) (s : str) :
  first_index c s = None <-> ~ In c s.
Proof.
  induction s as [|d s IH]; simpl; [tauto|].
  destruct (N.eqb_spec d c) as [->|Hd].
  - split; [discriminate | intros H; elim H; now left].
  - destruct (first_index c s).
    + split; [discriminate|]. intros H. exfalso.
      assert (Hs : ~ In c s) by tauto. apply IH in Hs. discriminate.
    + split; [|reflexivity]. intros _ [H|H]; [congruence|].
      now apply (proj1 IH).
Qed.

Lemma first_index_some (c : char) (s : str) (k : nat) :
  first_index c s = Some k ->
  s = firstn k s ++ c :: skipn (S k) s /\ ~ In c (firstn k s)
  /\ List.length (firstn k s) = k.
Proof.
  revert k. induction s as [|d s IH]; intros k; simpl; [discriminate|].
  destruct (N.eqb_spec d c) as [->|Hd].
  - intros [= <-]. simpl. auto.
  - destruct (first_index c s) as [j|]; [|discriminate].
    intros [= <-]. destruct (IH j eq_refl) as (Hs & Hpre & Hlen).
    simpl. repeat split.
    + f_equal. exact Hs.
    + intros [H|H]; [congruence | now apply Hpre].
    + now rewrite Hlen.
Qed.

Lemma slice_all (s : str) : slice s 0 (len s) = s.
Proof.
  unfold slice, len. simpl. rewrite Nat2Z.id, Nat.sub_0_r.
  apply firstn_all.
Qed.

Lemma slice_prefix (s : str) (k : nat) :
  slice s 0 (Z.of_nat k) = firstn k s.
Proof. unfold slice. simpl. now rewrite Nat2Z.id, Nat.sub_0_r. Qed.

Lemma slice_suffix (s : str) (k : nat) :
  slice s (Z.of_nat k + 1) (len s) = skipn (S k) s.
Proof.
  unfold slice, len.
  replace (Z.to_nat (Z.of_nat k + 1)) with (S k) by lia.
  rewrite Nat2Z.id. apply firstn_all2. rewrite length_skipn. lia.
Qed.

Lemma find_all (c : char) (s : str) :
  find c s 0 (len s)
  = match first_index c s with
    | Some k => Z.of_nat k
    | None => (-1)%Z
    end.
Proof. unfold find. rewrite slice_all. now destruct (first_index c s). Qed.

Lemma find_after (c : char) (s : str) (k : nat) :
  (find c s (Z.of_nat k + 1) (len s) =? -1)%Z = true
  <-> ~ In c (skipn (S k) s).
Proof.
  unfold find. rewrite slice_suffix, <- first_index_none.
  destruct (first_index c (skipn (S k) s)) as [j|].
  - split; [|discriminate]. intros H. apply Z.eqb_eq in H. lia.
  - split; reflexivity.
Qed.

Lemma find_before (c : char) (s : str) (k : nat) :
  (find c s 0 (Z.of_nat k) =? -1)%Z = true <-> ~ In c (firstn k s).
Proof.
  unfold find. rewrite slice_prefix, <- first_index_none.
  destruct (first_index c (firstn k s)) as [j|].
  - split; [|discriminate]. intros H. apply Z.eqb_eq in H. lia.
  - split; reflexivity.
Qed.

Lemma delete_at_position (s : str) (k : nat) :
  delete_at s (Z.of_nat k) = firstn k s ++ skipn (S k) s.
Proof. unfold delete_at. now rewrite slice_prefix, slice_suffix. Qed.

(** *** The two deletion steps *)

Lemma open_step_scan (l r : char) (t : str) :
  open_scan l r t
    (let idx := find l t 0 (len t) in
     if (0 <=? idx)%Z
     then let has_pair := find r t (idx + 1) (len t) in
          if (has_pair =? -1)%Z then delete_at t idx else t
     else t).
Proof.
  cbv zeta. rewrite find_all.
  destruct (first_index l t) as [k|] eqn:E.
  - replace (0 <=? Z.of_nat k)%Z with true by (symmetry; apply Z.leb_le; lia).
    destruct (first_index_some l t k E) as (Hs & Hpre & _).
    destruct (in_dec N.eq_dec r (skipn (S k) t)) as [Hin|Hout].
    + destruct (find r t (Z.of_nat k + 1) (len t) =? -1)%Z eqn:Ef.
      * apply find_after in Ef. contradiction.
      * remember (firstn k t) as pre. remember (skipn (S k) t) as post.
        rewrite Hs. now apply open_matched.
    + rewrite (proj2 (find_after r t k) Hout), delete_at_position.
      remember (firstn k t) as pre. remember (skipn (S k) t) as post.
      rewrite Hs at 1. now apply open_deleted.
  - simpl. apply open_absent. now apply first_index_none.
Qed.

Lemma close_step_scan (l r : char) (t : str) :
  close_scan l r t
    (let idx := find r t 0 (len t) in
     if (0 <=? idx)%Z
     then let has_pair := find l t 0 idx in
          if (has_pair =? -1)%Z then delete_at t idx else t
     else t).
Proof.
  cbv zeta. rewrite find_all.
  destruct (first_index r t) as [k|] eqn:E.
  - replace (0 <=? Z.of_nat k)%Z with true by (symmetry; apply Z.leb_le; lia).
    destruct (first_index_some r t k E) as (Hs & Hpre & _).
    destruct (in_dec N.eq_dec l (firstn k t)) as [Hin|Hout].
    + destruct (find l t 0 (Z.of_nat k) =? -1)%Z eqn:Ef.
      * apply find_before in Ef. contradiction.
      * remember (firstn k t) as pre. remember (skipn (S k) t) as post.
        rewrite Hs. now apply close_matched.
    + rewrite (proj2 (find_before l t k) Hout), delete_at_position.
      remember (firstn k t) as pre. remember (skipn (S k) t) as post.
      rewrite Hs at 1. now apply close_deleted.
  - simpl. apply close_absent. now apply first_index_none.
Qed.

(** *** The collapse: [replace] of a doubled and of a tripled bracket *)

Lemma replace_no_match (old new s : str) :
  contains old s = false -> replace old new s = s.
Proof.
  unfold replace. induction s as [|c s IH]; [reflexivity|].
  simpl contains. rewrite orb_false_iff. intros [Hhere Hlater].
  change (replace_from old new 0 (c :: s))
    with (if starts_with old (c :: s)
          then new ++ replace_from old new (List.length old - 1) s
          else c :: replace_from old new 0 s).
  rewrite Hhere. now rewrite (IH Hlater).
Qed.

Lemma replace_pair_here (c : char) (rest : str) :
  replace [c; c] [] (c :: c :: rest) = replace [c; c] [] rest.
Proof. unfold replace. simpl. now rewrite N.eqb_refl. Qed.

Lemma replace_pair_later (c x : char) (rest : str) :
  starts_with [c; c] (x :: rest) = false ->
  replace [c; c] [] (x :: rest) = x :: replace [c; c] [] rest.
Proof.
  unfold replace. intros H.
  change (replace_from [c; c] [] 0 (x :: rest))
    with (if starts_with [c; c] (x :: rest)
          then [] ++ replace_from [c; c] [] 1 rest
          else x :: replace_from [c; c] [] 0 rest).
  now rewrite H.
Qed.

Lemma starts_with_pair (c x : char) (rest : str) :
  starts_with [c; c] (x :: rest) = true ->
  x = c /\ exists rest', rest = c :: rest'.
Proof.
  simpl. destruct (N.eqb_spec c x) as [<-|]; [|discriminate].
  destruct rest as [|y rest']; [discriminate|].
  destruct (N.eqb_spec c y) as [<-|]; [|discriminate]. eauto.
Qed.

Lemma replace_pair_adjacent_free (c : char) (s : str) :
  adjacent_free c (replace [c; c] [] s) = true.
Proof.
  assert (H : forall n s, (List.length s <= n)%nat ->
                          adjacent_free c (replace [c; c] [] s) = true).
  { clear s. induction n as [|n IH]; intros [|x rest] Hlen;
      try reflexivity; [simpl in Hlen; lia|].
    simpl in Hlen.
    destruct (starts_with [c; c] (x :: rest)) eqn:E.
    - apply starts_with_pair in E as [-> [rest' ->]].
      rewrite replace_pair_here. apply IH. simpl in Hlen. lia.
    - rewrite (replace_pair_later c x rest E).
      change (adjacent_free c (x :: ?t))
        with (negb ((x =? c)%N
                    && match t with y :: _ => (y =? c)%N | [] => false end)
              && adjacent_free c t).
      rewrite (IH rest) by lia. rewrite andb_true_r.
      destruct (N.eqb_spec x c) as [->|]; [|reflexivity].
      destruct rest as [|y rest']; [reflexivity|].
      simpl in E. rewrite N.eqb_refl in E. simpl in E.
      rewrite andb_true_r in E.
      rewrite replace_pair_later by (simpl; now rewrite E).
      simpl. now rewrite N.eqb_sym, E. }
  now apply (H (List.length s)).
Qed.

Lemma adjacent_free_no_triple (c : char) (t : str) :
  adjacent_free c t = true -> contains [c; c; c] t = false.
Proof.
  induction t as [|x t IH]; [reflexivity|].
  simpl adjacent_free. rewrite andb_true_iff. intros [Hx Ht].
  simpl contains. rewrite (IH Ht), orb_false_r.
  destruct t as [|y t]; [now rewrite andb_false_r|].
  rewrite (N.eqb_sym c x). destruct (x =? c)%N; [|reflexivity].
  simpl in Hx. apply negb_true_iff in Hx.
  simpl. now rewrite (N.eqb_sym c y), Hx.
Qed.

Lemma replace_triple_after_pair (c : char) (t : str) :
  replace [c; c; c] [c] (replace [c; c] [] t) = replace [c; c] [] t.
Proof.
  apply replace_no_match, adjacent_free_no_triple,
    replace_pair_adjacent_free.
Qed.

Lemma replace_pair_even_run (c : char) (k : nat) (rest : str) :
  replace [c; c] [] (repeat c (2 * k) ++ rest) = replace [c; c] [] rest.
Proof.
  induction k as [|k IH]; [reflexivity|].
  replace (2 * S k)%nat with (S (S (2 * k))) by lia. simpl repeat.
  simpl app. now rewrite replace_pair_here.
Qed.

Lemma replace_pair_odd_run (c : char) (k : nat) (rest : str) :
  starts_with [c] rest = false ->
  replace [c; c] [] (repeat c (2 * k + 1) ++ rest)
  = c :: replace [c; c] [] rest.
Proof.
  intros H. rewrite repeat_app, <- app_assoc, replace_pair_even_run.
  simpl. apply replace_pair_later. simpl. rewrite N.eqb_refl.
  destruct rest as [|y rest]; [reflexivity|]. simpl in H.
  now rewrite andb_true_r in *.
Qed.

(** C5, as the code has it. The first replacement deletes doubled
    brackets pairwise from the left: an even run of opening brackets
    disappears, an odd run (a tripled bracket among them) keeps one; the
    replacement of a tripled bracket that follows never finds a match.
    Likewise for closing brackets. Then the scan looks at the first opening
    bracket only and deletes it when no closing bracket follows it, and at
    the first closing bracket only and deletes it when no opening bracket
    precedes it; nothing else is changed. *)
Theorem normalize_pair_punct_scan (s : str) (l r : char) :
  (exists t u,
      t = replace [r; r] [] (replace [l; l] [] s)
      /\ open_scan l r t u
      /\ close_scan l r u (normalize_pair_punct s l r))
  /\ (forall c k rest,
        replace [c; c] [] (repeat c (2 * k) ++ rest)
        = replace [c; c] [] rest)
  /\ (forall c k rest,
        starts_with [c] rest = false ->
        replace [c; c] [] (repeat c (2 * k + 1) ++ rest)
        = c :: replace [c; c] [] rest)
  /\ (forall c t,
        replace [c; c; c] [c] (replace [c; c] [] t) = replace [c; c] [] t).
Proof.
  split; [|split; [|split]].
  - unfold normalize_pair_punct. cbv zeta.
    rewrite !replace_triple_after_pair.
    eexists. eexists. split; [reflexivity|]. split.
    + apply open_step_scan.
    + apply close_step_scan.
  - exact replace_pair_even_run.
  - exact replace_pair_odd_run.
  - exact replace_triple_after_pair.
Qed.

(** A doubled opening bracket is not collapsed to one but deleted, and the
    closing bracket left without a partner goes with it: "((a)" becomes
    "a", where the scan as specified gives "(a)". And only the first
    opening bracket is examined: in "(a)(b" the second one has no closing
    bracket after it and stays, where the scan as specified gives "(a)b". *)
Lemma normalize_pair_punct_differs :
  normalize_pair_punct (lit "((a)") 0x28%N 0x29%N = lit "a"
  /\ spec_normalize_pair_punct (lit "((a)") 0x28%N 0x29%N = lit "(a)"
  /\ normalize_pair_punct (lit "(a)(b") 0x28%N 0x29%N = lit "(a)(b"
  /\ spec_normalize_pair_punct (lit "(a)(b") 0x28%N 0x29%N = lit "(a)b".
Proof. repeat split; reflexivity. Qed.

(** With the straight double quote as both brackets the first quote never
    has an opening bracket before it, so a balanced pair loses it. *)
Example normalize_pair_punct_straight_quotes :
  normalize_pair_punct ([0x22%N] ++ lit "hi" ++ [0x22%N]) 0x22%N 0x22%N
  = lit "hi" ++ [0x22%N].
Proof. reflexivity. Qed.

(* ================================================================== *)
(** * Further properties of the filters *)
(* ================================================================== *)

(** ** SameFilter *)

Lemma lstrip_blank (ws : str) : blank ws -> lstrip ws = [].
Proof.
  unfold blank. induction ws as [|c ws IH]; simpl; [reflexivity|].
  rewrite andb_true_iff. intros [-> H]. now apply IH.
Qed.

Lemma lstrip_app_blank (ws s : str) :
  blank ws -> lstrip (ws ++ s) = lstrip s.
Proof.
  unfold blank. induction ws as [|c ws IH]; simpl; [reflexivity|].
  rewrite andb_true_iff. intros [-> H]. now apply IH.
Qed.

Lemma rstrip_app_blank (s ws : str) :
  blank ws -> rstrip (s ++ ws) = rstrip s.
Proof.
  intros H. induction s as [|c s IH]; simpl.
  - now apply rstrip_nil_iff.
  - now rewrite IH.
Qed.

Lemma strip_app_blank (ws1 s ws2 : str) :
  blank ws1 -> blank ws2 -> strip (ws1 ++ s ++ ws2) = strip s.
Proof.
  intros H1 H2. unfold strip. rewrite (lstrip_app_blank ws1 _ H1).
  induction s as [|c s IH]; cbn [app lstrip].
  - rewrite (lstrip_blank ws2 H2). reflexivity.
  - destruct (isspace c); [exact IH|].
    exact (rstrip_app_blank (c :: s) ws2 H2).
Qed.

Lemma str_eqb_sym (a b : str) : str_eqb a b = str_eqb b a.
Proof.
  revert b. induction a as [|x a IH]; intros [|y b]; simpl; try reflexivity.
  now rewrite N.eqb_sym, IH.
Qed.

(** Whitespace around the source makes no difference: a source padded
    with whitespace on either end is rejected against itself, in both
    modes and whatever the case tables. *)
Theorem SameFilter_ignores_outer_whitespace (db : case_db)
  (self : SameFilter.t) (ws1 ws2 src : str) :
  blank ws1 -> blank ws2 ->
  SameFilter.filter db self (ws1 ++ src ++ ws2) src = None
  /\ SameFilter.filter db self src (ws1 ++ src ++ ws2) = None.
Proof.
  intros H1 H2. unfold SameFilter.filter.
  rewrite (strip_app_blank ws1 src ws2 H1 H2), !str_eqb_refl.
  now destruct (SameFilter._lower self).
Qed.

Lemma SameFilter_ignores_outer_whitespace_witness :
  blank (lit "  ") /\ blank [tab]
  /\ SameFilter.filter latin1_cases {| SameFilter._lower := false |}
       (lit "  " ++ lit "Hello" ++ [tab]) (lit "Hello") = None
  /\ SameFilter.filter latin1_cases {| SameFilter._lower := false |}
       (lit "Hello") (lit "  " ++ lit "Hello" ++ [tab]) = None.
Proof.
  split; [reflexivity|]. split; [reflexivity|].
  apply (SameFilter_ignores_outer_whitespace latin1_cases
           {| SameFilter._lower := false |} (lit "  ") [tab] (lit "Hello"));
    reflexivity.
Defined.

(** The decision does not depend on which side is the source, and the
    case-insensitive mode rejects every pair the case-sensitive mode
    rejects. *)
Theorem SameFilter_modes (db : case_db) (src tgt : str) :
  (forall self,
      SameFilter.filter db self src tgt = None
      <-> SameFilter.filter db self tgt src = None)
  /\ (SameFilter.filter db {| SameFilter._lower := false |} src tgt = None ->
      SameFilter.filter db {| SameFilter._lower := true |} src tgt = None).
Proof.
  split.
  - intros self. unfold SameFilter.filter.
    rewrite (str_eqb_sym (lower db (strip src))),
      (str_eqb_sym (strip src)).
    destruct (SameFilter._lower self);
      match goal with |- context [if ?b then _ else _] => destruct b end;
      split; intros H; try reflexivity; discriminate.
  - unfold SameFilter.filter. simpl.
    destruct (str_eqb (strip src) (strip tgt)) eqn:E; [|discriminate].
    apply str_eqb_eq in E. rewrite E, str_eqb_refl. reflexivity.
Qed.

(** ** Length filters *)

Lemma set_and_below_iff (bound : option Z) (x : Z) :
  set_and bound (fun m => x <? m)%Z = false
  <-> forall m, bound = Some m -> (m <= x)%Z.
Proof.
  destruct bound as [b|]; simpl.
  - rewrite Z.ltb_ge. split; [intros H m [= <-]; exact H | auto].
  - split; [intros _ m H; discriminate | reflexivity].
Qed.

Lemma set_and_above_iff (bound : option Z) (x : Z) :
  set_and bound (fun m => m <? x)%Z = false
  <-> forall m, bound = Some m -> (x <= m)%Z.
Proof.
  destruct bound as [b|]; simpl.
  - rewrite Z.ltb_ge. split; [intros H m [= <-]; exact H | auto].
  - split; [intros _ m H; discriminate | reflexivity].
Qed.

(** [LenFilter] keeps a pair exactly when each configured bound holds,
    the bounds being inclusive; otherwise it returns [None]. *)
Theorem LenFilter_keeps_iff (self : LenFilter.t) (src tgt : str) :
  (LenFilter.filter self src tgt = Some (src, tgt)
   <-> (forall m, LenFilter.src_min_len self = Some m ->
                  (m <= LenFilter.src_len_fn self src)%Z)
       /\ (forall m, LenFilter.src_max_len self = Some m ->
                     (LenFilter.src_len_fn self src <= m)%Z)
       /\ (forall m, LenFilter.tgt_min_len self = Some m ->
                     (m <= LenFilter.tgt_len_fn self tgt)%Z)
       /\ (forall m, LenFilter.tgt_max_len self = Some m ->
                     (LenFilter.tgt_len_fn self tgt <= m)%Z))
  /\ (LenFilter.filter self src tgt = None
      \/ LenFilter.filter self src tgt = Some (src, tgt)).
Proof.
  rewrite <- !set_and_below_iff, <- !set_and_above_iff.
  unfold LenFilter.filter.
  destruct (set_and (LenFilter.src_min_len self) _),
    (set_and (LenFilter.src_max_len self) _),
    (set_and (LenFilter.tgt_min_len self) _),
    (set_and (LenFilter.tgt_max_len self) _);
    (split; [split|]); auto; try discriminate;
    intros (H1 & H2 & H3 & H4); discriminate.
Qed.

(** [LengthFilter] is [LenFilter] with the same bounds followed by
    [LenDiffFilter] with the same ratio, both with the same length
    functions. *)
Theorem LengthFilter_is_LenFilter_then_LenDiffFilter
  (self : LengthFilter.t) (src tgt : str) :
  LengthFilter.filter self src tgt
  = match LenFilter.filter
            {| LenFilter.src_min_len := LengthFilter.src_min_len self;
               LenFilter.src_max_len := LengthFilter.src_max_len self;
               LenFilter.tgt_min_len := LengthFilter.tgt_min_len self;
               LenFilter.tgt_max_len := LengthFilter.tgt_max_len self;
               LenFilter.src_len_fn := LengthFilter.src_len_fn self;
               LenFilter.tgt_len_fn := LengthFilter.tgt_len_fn self |}
            src tgt with
    | Some (s, t) =>
        LenDiffFilter.filter
          {| LenDiffFilter.ratio := LengthFilter.ratio self;
             LenDiffFilter.src_len_fn := LengthFilter.src_len_fn self;
             LenDiffFilter.tgt_len_fn := LengthFilter.tgt_len_fn self |}
          s t
    | None => None
    end.
Proof.
  unfold LengthFilter.filter, LenFilter.filter, LenDiffFilter.filter. simpl.
  repeat match goal with
    | |- context [if set_and ?b ?p then _ else _] => destruct (set_and b p)
    end; reflexivity.
Qed.

Lemma LenDiffFilter_keeps_equal_lengths_witness :
  (0 < 1)%Q /\ (1 <= 1)%Q
  /\ LenDiffFilter.filter (LenDiffFilter.init 1) (lit "ab") (lit "cd")
     = Some (lit "ab", lit "cd")
  /\ len (lit "ab") = len (lit "cd")
  /\ (len (lit "ab") = 0%Z \/ 1 == 1)%Q.
Proof.
  split; [reflexivity|]. split; [discriminate|]. split; [reflexivity|].
  apply (LenDiffFilter_keeps_equal_lengths 1 (lit "ab") (lit "cd"));
    [reflexivity | discriminate | reflexivity].
Defined.

Lemma symmetric_ratio_sym (ratio : Q) (a b : Z) :
  symmetric_ratio ratio a b <-> symmetric_ratio ratio b a.
Proof. unfold symmetric_ratio. tauto. Qed.

Lemma symmetric_ratio_mono (r r' : Q) (a b : Z) :
  (0 <= a)%Z -> (0 <= b)%Z -> (r <= r')%Q ->
  symmetric_ratio r a b -> symmetric_ratio r' a b.
Proof.
  unfold symmetric_ratio. intros Ha Hb Hr [H1 H2].
  assert (Ha' : (0 <= inject_Z a)%Q)
    by (change 0%Q with (inject_Z 0); now rewrite <- Zle_Qle).
  assert (Hb' : (0 <= inject_Z b)%Q)
    by (change 0%Q with (inject_Z 0); now rewrite <- Zle_Qle).
  split.
  - eapply Qle_trans; [exact H1|]. now apply Qmult_le_compat_r.
  - eapply Qle_trans; [exact H2|]. now apply Qmult_le_compat_r.
Qed.

Lemma len_nonneg (s : str) : (0 <= len s)%Z.
Proof. unfold len. lia. Qed.

(** With the character-count lengths, [LenDiffFilter] treats the two sides
    alike, and a pair kept at one ratio is kept at every larger ratio. *)
Theorem LenDiffFilter_symmetric_monotone (ratio : Q) (src tgt : str) :
  (LenDiffFilter.filter (LenDiffFilter.init ratio) src tgt = Some (src, tgt)
   <-> LenDiffFilter.filter (LenDiffFilter.init ratio) tgt src
       = Some (tgt, src))
  /\ (forall ratio' : Q,
        (ratio <= ratio')%Q ->
        LenDiffFilter.filter (LenDiffFilter.init ratio) src tgt
        = Some (src, tgt) ->
        LenDiffFilter.filter (LenDiffFilter.init ratio') src tgt
        = Some (src, tgt)).
Proof.
  split.
  - rewrite (proj1 (LenDiffFilter_filter_iff (LenDiffFilter.init ratio) src tgt)).
    rewrite (proj1 (LenDiffFilter_filter_iff (LenDiffFilter.init ratio) tgt src)).
    apply symmetric_ratio_sym.
  - intros ratio' Hle H.
    apply (LenDiffFilter_filter_iff (LenDiffFilter.init ratio)) in H.
    apply (LenDiffFilter_filter_iff (LenDiffFilter.init ratio')).
    simpl in *.
    apply (symmetric_ratio_mono ratio ratio'); auto using len_nonneg.
Qed.

(** ** LongWordFilter *)

Lemma fold_max_le (xs : list Z) (x b : Z) :
  (fold_left Z.max xs x <= b)%Z <-> (x <= b)%Z /\ Forall (fun y => y <= b)%Z xs.
Proof.
  revert x. induction xs as [|y xs IH]; intros x; simpl.
  - split; [intros H; split; [exact H | constructor] | tauto].
  - rewrite IH. split.
    + intros [H1 H2]. split; [lia|]. constructor; [lia | exact H2].
    + intros [H1 H2]. inversion H2; subst. split; [lia | assumption].
Qed.

Lemma too_long_false_iff (m : Z) (s : str) :
  split s <> [] ->
  (LongWordFilter.too_long (Some m) s = Ok false
   <-> Forall (fun w => len w <= m)%Z (split s))
  /\ (LongWordFilter.too_long (Some m) s = Ok false
      \/ LongWordFilter.too_long (Some m) s = Ok true).
Proof.
  intros Hne. unfold LongWordFilter.too_long.
  destruct (split s) as [|w ws]; [now elim Hne|]. simpl.
  destruct (Z.ltb_spec m (fold_left Z.max (map len ws) (len w))) as [H|H].
  - split; [|now right]. split; [discriminate|]. intros HF. exfalso.
    assert (fold_left Z.max (map len ws) (len w) <= m)%Z; [|lia].
    apply fold_max_le. inversion HF; subst. split; [assumption|].
    now apply (proj2 (@Forall_map _ _ len (fun y => (y <= m)%Z) ws)).
  - split; [|now left]. split; [|reflexivity]. intros _.
    apply fold_max_le in H as [H1 H2]. constructor; [exact H1|].
    exact (proj1 (@Forall_map _ _ len (fun y => (y <= m)%Z) ws) H2).
Qed.

(** When both maxima are set and both sides hold at least one token, the
    pair is kept exactly when no token of the source is longer than the
    source maximum and no token of the target longer than the target
    maximum (lengths equal to the maximum pass); otherwise the call returns
    [None]. *)
Theorem LongWordFilter_keeps_iff (ms mt : Z) (src tgt : str) :
  split src <> [] -> split tgt <> [] ->
  let self := {| LongWordFilter.src_max_len := Some ms;
                 LongWordFilter.tgt_max_len := Some mt |} in
  (LongWordFilter.filter self src tgt = Ok (Some (src, tgt))
   <-> Forall (fun w => len w <= ms)%Z (split src)
       /\ Forall (fun w => len w <= mt)%Z (split tgt))
  /\ (LongWordFilter.filter self src tgt = Ok (Some (src, tgt))
      \/ LongWordFilter.filter self src tgt = Ok None).
Proof.
  intros Hs Ht self. subst self. unfold LongWordFilter.filter, bind.
  cbn [LongWordFilter.src_max_len LongWordFilter.tgt_max_len].
  destruct (too_long_false_iff ms src Hs) as [Hsi Hsv].
  destruct (too_long_false_iff mt tgt Ht) as [Hti Htv].
  rewrite <- Hsi, <- Hti.
  destruct Hsv as [E1|E1]; rewrite E1.
  - destruct Htv as [E2|E2]; rewrite E2.
    + split; [split; auto | now left].
    + split; [|now right].
      split; [discriminate | intros [_ H]; discriminate].
  - split; [|now right].
    split; [discriminate | intros [H _]; discriminate].
Qed.

Lemma LongWordFilter_keeps_iff_witness :
  split (lit "a bcd") <> [] /\ split (lit "xy") <> []
  /\ LongWordFilter.filter
       {| LongWordFilter.src_max_len := Some 3%Z;
          LongWordFilter.tgt_max_len := Some 2%Z |}
       (lit "a bcd") (lit "xy")
     = Ok (Some (lit "a bcd", lit "xy")).
Proof.
  assert (Hs : split (lit "a bcd") <> []) by discriminate.
  assert (Ht : split (lit "xy") <> []) by discriminate.
  split; [exact Hs|]. split; [exact Ht|].
  apply (LongWordFilter_keeps_iff 3 2 (lit "a bcd") (lit "xy") Hs Ht).
  split; repeat constructor; vm_compute; discriminate.
Defined.

(** ** What [EmptyFilter] protects the later filters from *)

Lemma EmptyFilter_kept_not_blank (src tgt : str) (p : pair) :
  EmptyFilter.filter src tgt = Some p -> ~ blank src /\ ~ blank tgt.
Proof.
  unfold EmptyFilter.filter, blank. rewrite <- !strip_nil_iff.
  destruct (len (strip src) =? 0)%Z eqn:Es; [discriminate|].
  destruct (len (strip tgt) =? 0)%Z eqn:Et; [discriminate|]. intros _.
  split; intros H; apply len_zero_iff in H; congruence.
Qed.

Lemma not_blank_nonempty (s : str) : ~ blank s -> len s <> 0%Z.
Proof.
  intros H E. apply H. destruct s; [reflexivity|]. unfold len in E.
  simpl in E. lia.
Qed.

Lemma truediv_nonzero (a b : Z) :
  b <> 0%Z -> truediv a b = Ok (Qmake a (Z.to_pos b)).
Proof.
  intros H. unfold truediv. now destruct (Z.eqb_spec b 0).
Qed.

(** A pair that [EmptyFilter] keeps cannot make [LongWordFilter],
    [ASCIIRatioFilter] or [AlphabetRatioFilter] (whitespace included in the
    denominator) fail: each of them returns a decision on it, however it is
    configured. *)
Theorem EmptyFilter_guards (src tgt : str) (p : pair) :
  EmptyFilter.filter src tgt = Some p ->
  (forall self, exists d, LongWordFilter.filter self src tgt = Ok d)
  /\ (forall is_ascii_char self,
        exists d, ASCIIRatioFilter.filter is_ascii_char self src tgt = Ok d)
  /\ (forall db self,
        AlphabetRatioFilter.exclude_whitespace self = false ->
        exists d, AlphabetRatioFilter.filter db self src tgt = Ok d).
Proof.
  intros H. apply EmptyFilter_kept_not_blank in H as [Hs Ht].
  split; [|split].
  - intros self.
    assert (Hs' : LongWordFilter.src_max_len self <> None -> split src <> [])
      by (intros _ E; now apply split_nil_iff in E).
    assert (Ht' : LongWordFilter.tgt_max_len self <> None -> split tgt <> [])
      by (intros _ E; now apply split_nil_iff in E).
    destruct (too_long_total _ src Hs') as [bs Es].
    destruct (too_long_total _ tgt Ht') as [bt Et].
    unfold LongWordFilter.filter. rewrite Es, Et.
    destruct (LongWordFilter.src_max_len self),
      (LongWordFilter.tgt_max_len self), bs, bt; simpl; eauto.
  - intros is_ascii_char self.
    unfold ASCIIRatioFilter.filter, ASCIIRatioFilter.too_ascii.
    rewrite !truediv_nonzero by now apply not_blank_nonempty.
    destruct (ASCIIRatioFilter._filter_src self),
      (ASCIIRatioFilter._filter_tgt self); simpl;
      repeat match goal with
        | |- context [if ?b then _ else _] => destruct b
        end; eauto.
  - intros db self Hex.
    unfold AlphabetRatioFilter.filter, AlphabetRatioFilter.score.
    rewrite Hex, !truediv_nonzero by now apply not_blank_nonempty.
    simpl.
    repeat match goal with
      | |- context [if ?b then _ else _] => destruct b
      end; eauto.
Qed.

Lemma EmptyFilter_guards_witness :
  EmptyFilter.filter (lit "a") (lit " b ") = Some (lit "a", lit " b ")
  /\ exists d,
      LongWordFilter.filter LongWordFilter.default (lit "a") (lit " b ")
      = Ok d.
Proof.
  split; [reflexivity|].
  apply (EmptyFilter_guards (lit "a") (lit " b ") (lit "a", lit " b ")
           eq_refl).
Defined.

(** ** ASCIIRatioFilter *)

Lemma n_ascii_from (is_ascii_char : char -> bool) (s : str) (n : Z) :
  (n <= fold_left (fun n c => if is_ascii_char c then n + 1 else n) s n
   <= n + len s)%Z.
Proof.
  revert n. unfold len. induction s as [|c s IH]; intros n; simpl; [lia|].
  destruct (is_ascii_char c).
  - specialize (IH (n + 1)%Z). lia.
  - specialize (IH n). lia.
Qed.

Lemma n_ascii_bounds (is_ascii_char : char -> bool) (s : str) :
  (0 <= ASCIIRatioFilter.n_ascii is_ascii_char s <= len s)%Z.
Proof. apply (n_ascii_from is_ascii_char s 0). Qed.

Lemma fraction_le_1 (a b : Z) :
  (0 < b)%Z -> (a <= b)%Z -> (Qmake a (Z.to_pos b) <= 1)%Q.
Proof.
  intros Hb Hab. unfold Qle. simpl. rewrite Z2Pos.id by exact Hb. lia.
Qed.

Lemma fraction_ge_0 (a b : Z) : (0 <= a)%Z -> (0 <= Qmake a (Z.to_pos b))%Q.
Proof. intros Ha. unfold Qle. simpl. lia. Qed.

(** The count of ASCII characters lies between 0 and the length, so the
    fraction is at most 1: with a threshold of 1 or more the filter keeps
    every pair of non-empty sides. *)
Theorem ASCIIRatioFilter_threshold_1 (is_ascii_char : char -> bool)
  (self : ASCIIRatioFilter.t) (src tgt : str) :
  (1 <= ASCIIRatioFilter._threshold self)%Q ->
  src <> [] -> tgt <> [] ->
  (0 <= ASCIIRatioFilter.n_ascii is_ascii_char src <= len src)%Z
  /\ ASCIIRatioFilter.filter is_ascii_char self src tgt
     = Ok (Some (src, tgt)).
Proof.
  intros Hth Hs Ht. split; [apply n_ascii_bounds|].
  assert (Hside : forall flag s, s <> [] ->
            ASCIIRatioFilter.too_ascii is_ascii_char self flag s = Ok false).
  { intros flag s Hne. unfold ASCIIRatioFilter.too_ascii.
    destruct flag; [|reflexivity].
    assert (Hlen : (0 < len s)%Z)
      by (destruct s; [congruence | unfold len; simpl; lia]).
    rewrite truediv_nonzero by lia. simpl. f_equal.
    unfold Qlt_bool. apply negb_false_iff, Qle_bool_iff.
    eapply Qle_trans; [|exact Hth].
    apply fraction_le_1; [exact Hlen | apply n_ascii_bounds]. }
  unfold ASCIIRatioFilter.filter. now rewrite !Hside.
Qed.

Lemma ASCIIRatioFilter_threshold_1_witness :
  (1 <= 1)%Q /\ lit "abc" <> [] /\ lit "xyz" <> []
  /\ ASCIIRatioFilter.filter is_ascii_cp
       {| ASCIIRatioFilter._threshold := 1;
          ASCIIRatioFilter._filter_src := true;
          ASCIIRatioFilter._filter_tgt := true |}
       (lit "abc") (lit "xyz")
     = Ok (Some (lit "abc", lit "xyz")).
Proof.
  assert (H1 : (1 <= 1)%Q) by discriminate.
  assert (H2 : lit "abc" <> []) by discriminate.
  assert (H3 : lit "xyz" <> []) by discriminate.
  split; [exact H1|]. split; [exact H2|]. split; [exact H3|].
  apply (ASCIIRatioFilter_threshold_1 is_ascii_cp
           {| ASCIIRatioFilter._threshold := 1;
              ASCIIRatioFilter._filter_src := true;
              ASCIIRatioFilter._filter_tgt := true |}
           (lit "abc") (lit "xyz") H1 H2 H3).
Defined.

(** ** CharacterRatioFilter *)

Lemma sub_class_length (class : char -> bool) (s : str) :
  (len (sub_class class s) <= len s)%Z.
Proof.
  unfold len, sub_class. apply inj_le, filter_length_le.
Qed.

Lemma filter_all_iff (keep : char -> bool) (s : str) :
  List.length (List.filter keep s) = List.length s
  <-> forallb keep s = true.
Proof.
  induction s as [|c s IH]; simpl; [tauto|].
  pose proof (filter_length_le keep s) as Hle.
  destruct (keep c); simpl.
  - rewrite <- IH. split; intros H; lia.
  - split; [intros H; lia | discriminate].
Qed.

(** The score is a fraction between 0 and 1, and computing it never
    divides by zero: the only failure is an index outside the list of
    compiled scripts. *)
Theorem CharacterRatioFilter_score_range (db : regex_db)
  (self : CharacterRatioFilter.t) (sent : str) (idx : nat) :
  match CharacterRatioFilter.score db self sent idx with
  | Ok q => (0 <= q)%Q /\ (q <= 1)%Q
  | Raise e =>
      e = IndexError
      /\ (List.length (CharacterRatioFilter.re_not_script self) <= idx)%nat
  end.
Proof.
  unfold CharacterRatioFilter.score.
  set (alphas := sub_class (fun c => negb (Alphabetic db c)) sent).
  destruct alphas as [|a rest] eqn:E; [split; discriminate|].
  unfold index.
  destruct (nth_error (CharacterRatioFilter.re_not_script self) idx)
    as [not_script|] eqn:En; unfold bind; cbv beta iota.
  - assert (Hpos : (0 < len (a :: rest))%Z) by (unfold len; simpl; lia).
    rewrite truediv_nonzero by lia. split.
    + apply fraction_ge_0. unfold len. lia.
    + apply fraction_le_1; [exact Hpos | apply sub_class_length].
  - split; [reflexivity|]. now apply nth_error_None.
Qed.

Lemma compile_all_ok_iff (db : regex_db) (names : list string) :
  (exists cs, CharacterRatioFilter.compile_all db names = Ok cs)
  <-> Forall (fun name => Script db name <> None) names.
Proof.
  induction names as [|name names IH]; simpl.
  - split; [constructor | eauto].
  - unfold CharacterRatioFilter.compile_not_script.
    destruct (Script db name) as [in_script|] eqn:E; simpl.
    + split.
      * intros [cs H]. constructor; [congruence|]. apply IH.
        destruct (CharacterRatioFilter.compile_all db names); [eauto|].
        discriminate.
      * intros H. inversion H; subst.
        destruct (proj2 IH H3) as [cs ->]. simpl. eauto.
    + split; [intros [cs H]; discriminate|].
      intros H. inversion H; subst. congruence.
Qed.

Lemma compile_all_length (db : regex_db) (names : list string)
  (cs : list (char -> bool)) :
  CharacterRatioFilter.compile_all db names = Ok cs ->
  List.length cs = List.length names.
Proof.
  revert cs. induction names as [|name names IH]; intros cs; simpl.
  - now intros [= <-].
  - destruct (CharacterRatioFilter.compile_not_script db name); simpl;
      [|discriminate].
    destruct (CharacterRatioFilter.compile_all db names) as [cs'|]; simpl;
      [|discriminate].
    intros [= <-]. simpl. now rewrite (IH cs' eq_refl).
Qed.

(** Construction succeeds exactly when [regex] knows every script name.
    The filter then holds one compiled class per script and, by default,
    one threshold of 1 per script; a thresholds list that is passed in is
    stored as it is, whatever its length. *)
Theorem CharacterRatioFilter_init_spec (db : regex_db)
  (scripts : list string) (thresholds : option (list Q)) :
  ((exists f, CharacterRatioFilter.init db scripts thresholds = Ok f)
   <-> Forall (fun name => Script db name <> None) scripts)
  /\ (forall f,
        CharacterRatioFilter.init db scripts thresholds = Ok f ->
        CharacterRatioFilter.scripts f = scripts
        /\ List.length (CharacterRatioFilter.re_not_script f)
           = List.length scripts
        /\ CharacterRatioFilter.thresholds f
           = match thresholds with
             | Some ths => ths
             | None => repeat (Qmake 1 1) (List.length scripts)
             end).
Proof.
  unfold CharacterRatioFilter.init. split.
  - rewrite <- compile_all_ok_iff. split.
    + intros [f H].
      destruct (CharacterRatioFilter.compile_all db scripts); [eauto|].
      discriminate.
    + intros [cs ->]. simpl. eauto.
  - intros f.
    destruct (CharacterRatioFilter.compile_all db scripts) as [cs|] eqn:E;
      simpl; [|discriminate].
    intros [= <-]. simpl. repeat split.
    now apply (compile_all_length db).
Qed.

Lemma score_defined (db : regex_db) (self : CharacterRatioFilter.t)
  (sent : str) (idx : nat) :
  (idx < List.length (CharacterRatioFilter.re_not_script self))%nat ->
  exists q, CharacterRatioFilter.score db self sent idx = Ok q.
Proof.
  intros Hidx. unfold CharacterRatioFilter.score.
  destruct (sub_class (fun c => negb (Alphabetic db c)) sent) as [|a rest];
    [eauto|].
  unfold index.
  destruct (nth_error (CharacterRatioFilter.re_not_script self) idx) eqn:En;
    [|apply nth_error_None in En; lia].
  unfold bind; cbv beta iota.
  rewrite truediv_nonzero by (unfold len; simpl; lia). eauto.
Qed.

Lemma index_defined (A : Type) (xs : list A) (i : nat) :
  (i < List.length xs)%nat -> exists x, index xs i = Ok x.
Proof.
  intros H. unfold index. destruct (nth_error xs i) eqn:E; [eauto|].
  apply nth_error_None in E. lia.
Qed.

Lemma CharacterRatioFilter_filter_defined (db : regex_db)
  (self : CharacterRatioFilter.t) (src tgt : str) :
  (2 <= List.length (CharacterRatioFilter.re_not_script self))%nat ->
  (2 <= List.length (CharacterRatioFilter.thresholds self))%nat ->
  CharacterRatioFilter.filter db self src tgt = Ok None
  \/ CharacterRatioFilter.filter db self src tgt = Ok (Some (src, tgt)).
Proof.
  intros Hcs Hths. unfold CharacterRatioFilter.filter.
  destruct (score_defined db self src 0) as [s0 ->]; [lia|].
  destruct (score_defined db self tgt 1) as [s1 ->]; [lia|].
  destruct (index_defined Q (CharacterRatioFilter.thresholds self) 0)
    as [t0 ->]; [lia|].
  destruct (index_defined Q (CharacterRatioFilter.thresholds self) 1)
    as [t1 ->]; [lia|].
  unfold bind; cbv beta iota.
  destruct (Qlt_bool s0 t0); [now left|].
  destruct (Qlt_bool s1 t1); [now left | now right].
Qed.

(** A filter constructed from at least two scripts, with the default
    thresholds or at least two thresholds, returns a decision on every
    pair. *)
Theorem CharacterRatioFilter_two_scripts_total (db : regex_db)
  (scripts : list string) (thresholds : option (list Q))
  (f : CharacterRatioFilter.t) (src tgt : str) :
  CharacterRatioFilter.init db scripts thresholds = Ok f ->
  (2 <= List.length scripts)%nat ->
  (forall ths, thresholds = Some ths -> (2 <= List.length ths)%nat) ->
  CharacterRatioFilter.filter db f src tgt = Ok None
  \/ CharacterRatioFilter.filter db f src tgt = Ok (Some (src, tgt)).
Proof.
  intros Hinit Hn Hths.
  unfold CharacterRatioFilter.init in Hinit.
  destruct (CharacterRatioFilter.compile_all db scripts) as [cs|] eqn:E;
    simpl in Hinit; [|discriminate].
  injection Hinit as <-.
  apply CharacterRatioFilter_filter_defined; simpl.
  - now rewrite (compile_all_length db scripts cs E).
  - destruct thresholds as [l|]; [now apply Hths|].
    now rewrite repeat_length.
Qed.

Lemma CharacterRatioFilter_two_scripts_total_witness :
  exists f,
    CharacterRatioFilter.init excerpt_properties ["Han"; "Latin"]%string None
    = Ok f
    /\ (CharacterRatioFilter.filter excerpt_properties f [] (lit "hello")
        = Ok None
        \/ CharacterRatioFilter.filter excerpt_properties f [] (lit "hello")
           = Ok (Some ([], lit "hello"))).
Proof.
  eexists. split; [reflexivity|].
  apply (CharacterRatioFilter_two_scripts_total excerpt_properties
           ["Han"; "Latin"]%string None _ [] (lit "hello") eq_refl).
  - simpl. lia.
  - discriminate.
Defined.

Lemma score_raises_index_error (db : regex_db)
  (self : CharacterRatioFilter.t) (sent : str) (idx : nat) (e : exn) :
  CharacterRatioFilter.score db self sent idx = Raise e -> e = IndexError.
Proof.
  unfold CharacterRatioFilter.score.
  destruct (sub_class (fun c => negb (Alphabetic db c)) sent) as [|a rest];
    [discriminate|].
  unfold index.
  destruct (nth_error (CharacterRatioFilter.re_not_script self) idx);
    unfold bind; cbv beta iota; [|congruence].
  rewrite truediv_nonzero by (unfold len; simpl; lia). discriminate.
Qed.

(** With fewer than two thresholds no pair is ever kept: a call either
    rejects on the source or fails with [IndexError]. This is the case of
    a filter built from a single script with the default thresholds. *)
Theorem CharacterRatioFilter_short_thresholds (db : regex_db)
  (self : CharacterRatioFilter.t) (src tgt : str) :
  (List.length (CharacterRatioFilter.thresholds self) < 2)%nat ->
  CharacterRatioFilter.filter db self src tgt = Ok None
  \/ CharacterRatioFilter.filter db self src tgt = Raise IndexError.
Proof.
  intros Hlen. unfold CharacterRatioFilter.filter.
  assert (H1 : index (CharacterRatioFilter.thresholds self) 1
               = Raise IndexError).
  { unfold index.
    destruct (nth_error (CharacterRatioFilter.thresholds self) 1) eqn:E;
      [|reflexivity].
    assert (1 < List.length (CharacterRatioFilter.thresholds self))%nat
      by (apply nth_error_Some; congruence). lia. }
  rewrite H1.
  destruct (CharacterRatioFilter.score db self src 0) as [s0|e] eqn:E0;
    unfold bind; cbv beta iota;
    [|right; now rewrite (score_raises_index_error db self src 0 e E0)].
  destruct (index (CharacterRatioFilter.thresholds self) 0) as [t0|e] eqn:Et;
    [|right; unfold index in Et;
      destruct (nth_error (CharacterRatioFilter.thresholds self) 0);
      [discriminate | now injection Et as <-]].
  destruct (Qlt_bool s0 t0); [now left|].
  destruct (CharacterRatioFilter.score db self tgt 1) as [s1|e] eqn:E1;
    [now right|].
  right. now rewrite (score_raises_index_error db self tgt 1 e E1).
Qed.

Lemma CharacterRatioFilter_short_thresholds_witness :
  exists f,
    CharacterRatioFilter.init excerpt_properties ["Han"]%string None = Ok f
    /\ (List.length (CharacterRatioFilter.thresholds f) < 2)%nat
    /\ (CharacterRatioFilter.filter excerpt_properties f
          nihao_shijie (lit "hello") = Ok None
        \/ CharacterRatioFilter.filter excerpt_properties f
             nihao_shijie (lit "hello") = Raise IndexError).
Proof.
  pose (f := {| CharacterRatioFilter.scripts := ["Han"]%string;
                CharacterRatioFilter.thresholds := [Qmake 1 1];
                CharacterRatioFilter.re_not_script :=
                  [fun c => negb (cjk_unified_ideograph c)] |}).
  exists f. split; [reflexivity|].
  assert (H : (List.length (CharacterRatioFilter.thresholds f) < 2)%nat)
    by (simpl; lia).
  split; [exact H|].
  exact (CharacterRatioFilter_short_thresholds excerpt_properties f
           nihao_shijie (lit "hello") H).
Defined.

Lemma filter_negb_negb (keep : char -> bool) (s : str) :
  List.filter (fun c => negb (negb (keep c))) s = List.filter keep s.
Proof.
  apply filter_ext. intros c. apply negb_involutive.
Qed.

Lemma score_reaches_1 (db : regex_db) (self : CharacterRatioFilter.t)
  (sent : str) (idx : nat) (in_script : char -> bool) :
  nth_error (CharacterRatioFilter.re_not_script self) idx
  = Some (fun c => negb (in_script c)) ->
  exists q,
    CharacterRatioFilter.score db self sent idx = Ok q
    /\ (Qlt_bool q (Qmake 1 1) = false
        <-> List.filter (Alphabetic db) sent <> []
            /\ forallb in_script (List.filter (Alphabetic db) sent) = true).
Proof.
  intros Hidx. unfold CharacterRatioFilter.score, sub_class, index.
  rewrite filter_negb_negb, Hidx.
  destruct (List.filter (Alphabetic db) sent) as [|a rest] eqn:E.
  - eexists. split; [reflexivity|]. split; [discriminate|].
    intros [H _]. now elim H.
  - unfold bind; cbv beta iota. rewrite filter_negb_negb.
    rewrite truediv_nonzero by (unfold len; simpl; lia).
    eexists. split; [reflexivity|].
    rewrite <- filter_all_iff.
    pose proof (filter_length_le in_script (a :: rest)) as Hle.
    unfold Qlt_bool. rewrite negb_false_iff, Qle_bool_iff.
    unfold Qle, len. cbn [Qnum Qden].
    rewrite Z2Pos.id by (simpl List.length; lia).
    split.
    + intros H. split; [discriminate | lia].
    + intros [_ H]. lia.
Qed.

(** With the default thresholds (1 for each side) a filter built from two
    scripts keeps a pair exactly when each side has at least one alphabetic
    character and every alphabetic character of the side belongs to the
    side's script. *)
Theorem CharacterRatioFilter_default_keeps_iff (db : regex_db)
  (s0 s1 : string) (in0 in1 : char -> bool) (src tgt : str) :
  Script db s0 = Some in0 -> Script db s1 = Some in1 ->
  exists f,
    CharacterRatioFilter.init db [s0; s1] None = Ok f
    /\ (CharacterRatioFilter.filter db f src tgt = Ok (Some (src, tgt))
        <-> (List.filter (Alphabetic db) src <> []
             /\ forallb in0 (List.filter (Alphabetic db) src) = true)
            /\ (List.filter (Alphabetic db) tgt <> []
                /\ forallb in1 (List.filter (Alphabetic db) tgt) = true))
    /\ (CharacterRatioFilter.filter db f src tgt = Ok (Some (src, tgt))
        \/ CharacterRatioFilter.filter db f src tgt = Ok None).
Proof.
  intros H0 H1. unfold CharacterRatioFilter.init. simpl.
  unfold CharacterRatioFilter.compile_not_script. rewrite H0, H1. simpl.
  eexists. split; [reflexivity|].
  set (f := {| CharacterRatioFilter.scripts := [s0; s1];
               CharacterRatioFilter.thresholds := [Qmake 1 1; Qmake 1 1];
               CharacterRatioFilter.re_not_script :=
                 [fun c => negb (in0 c); fun c => negb (in1 c)] |}).
  destruct (score_reaches_1 db f src 0 in0 eq_refl) as (q0 & E0 & I0).
  destruct (score_reaches_1 db f tgt 1 in1 eq_refl) as (q1 & E1 & I1).
  unfold CharacterRatioFilter.filter. rewrite E0, E1.
  unfold bind, index; cbn [nth_error CharacterRatioFilter.thresholds f].
  rewrite <- I0, <- I1.
  destruct (Qlt_bool q0 (Qmake 1 1)); [|destruct (Qlt_bool q1 (Qmake 1 1))].
  - split; [|now right]. split; [discriminate | intros [H _]; discriminate].
  - split; [|now right]. split; [discriminate | intros [_ H]; discriminate].
  - split; [|now left]. split; auto.
Qed.

Lemma CharacterRatioFilter_default_keeps_iff_witness :
  Script excerpt_properties "Han" = Some cjk_unified_ideograph
  /\ Script excerpt_properties "Latin" = Some basic_latin_letter
  /\ exists f,
      CharacterRatioFilter.init excerpt_properties ["Han"; "Latin"]%string None
      = Ok f
      /\ CharacterRatioFilter.filter excerpt_properties f
           nihao_world (lit "hello")
         = Ok None.
Proof.
  split; [reflexivity|]. split; [reflexivity|].
  destruct (CharacterRatioFilter_default_keeps_iff excerpt_properties
              "Han" "Latin" cjk_unified_ideograph basic_latin_letter
              nihao_world (lit "hello") eq_refl eq_refl)
    as (f & Hinit & Hiff & Hdec).
  exists f. split; [exact Hinit|].
  destruct Hdec as [Hk|Hd]; [|exact Hd].
  apply Hiff in Hk. destruct Hk as [[_ Hk] _]. vm_compute in Hk.
  discriminate.
Defined.

(** ** AlphabetRatioFilter *)

(** With whitespace counted in the denominator, the score of a non-empty
    side is a fraction between 0 and 1; so a threshold above 1 rejects the
    pair on the source alone, before the target is looked at. *)
Theorem AlphabetRatioFilter_score_range (db : regex_db)
  (self : AlphabetRatioFilter.t) (src tgt : str) :
  AlphabetRatioFilter.exclude_whitespace self = false -> src <> [] ->
  (exists q, AlphabetRatioFilter.score db self src = Ok q
             /\ (0 <= q)%Q /\ (q <= 1)%Q)
  /\ ((1 < AlphabetRatioFilter.threshold self)%Q ->
      AlphabetRatioFilter.filter db self src tgt = Ok None).
Proof.
  intros Hex Hne.
  assert (Hlen : (0 < len src)%Z)
    by (destruct src; [congruence | unfold len; simpl; lia]).
  assert (Hscore : AlphabetRatioFilter.score db self src
                   = Ok (Qmake (len (sub_class
                                       (fun c => negb (Alphabetic db c)) src))
                           (Z.to_pos (len src)))).
  { unfold AlphabetRatioFilter.score. rewrite Hex.
    now rewrite truediv_nonzero by lia. }
  assert (Hle : (Qmake (len (sub_class
                               (fun c => negb (Alphabetic db c)) src))
                   (Z.to_pos (len src)) <= 1)%Q)
    by (apply fraction_le_1; [exact Hlen | apply sub_class_length]).
  split.
  - eexists. split; [exact Hscore|]. split; [|exact Hle].
    apply fraction_ge_0. apply len_nonneg.
  - intros Hth. unfold AlphabetRatioFilter.filter. rewrite Hscore.
    unfold bind; cbv beta iota.
    destruct (Qle_bool (AlphabetRatioFilter.threshold self) _) eqn:E;
      [|reflexivity].
    apply Qle_bool_iff in E. exfalso.
    apply (Qlt_irrefl 1). eapply Qlt_le_trans; [exact Hth|].
    eapply Qle_trans; [exact E | exact Hle].
Qed.

Lemma AlphabetRatioFilter_score_range_witness :
  AlphabetRatioFilter.exclude_whitespace AlphabetRatioFilter.default = false
  /\ lit "ab1" <> []
  /\ exists q,
      AlphabetRatioFilter.score excerpt_properties
        AlphabetRatioFilter.default (lit "ab1") = Ok q
      /\ (0 <= q)%Q /\ (q <= 1)%Q.
Proof.
  assert (H : lit "ab1" <> []) by discriminate.
  split; [reflexivity|]. split; [exact H|].
  apply (AlphabetRatioFilter_score_range excerpt_properties
           AlphabetRatioFilter.default (lit "ab1") [] eq_refl H).
Defined.

(** ** AugumentForZhFilter *)

Lemma starts_with_prefix (w t : str) : starts_with w (w ++ t) = true.
Proof.
  induction w as [|c w IH]; simpl; [reflexivity|].
  now rewrite N.eqb_refl, IH.
Qed.

Lemma contains_prefix (w t : str) : contains w (w ++ t) = true.
Proof.
  destruct (w ++ t) eqn:E; simpl; rewrite <- E, starts_with_prefix;
    reflexivity.
Qed.

Lemma contains_cons (w t : str) (c : char) :
  contains w t = true -> contains w (c :: t) = true.
Proof. intros H. simpl. rewrite H. apply orb_true_r. Qed.

Lemma contains_app_l (w p t : str) :
  contains w t = true -> contains w (p ++ t) = true.
Proof.
  intros H. induction p as [|c p IH]; [exact H|].
  now apply contains_cons.
Qed.

Lemma forallb_rev (keep : char -> bool) (w : str) :
  forallb keep w = true -> forallb keep (rev w) = true.
Proof.
  rewrite !forallb_forall. intros H c Hc. apply H. now apply in_rev.
Qed.

Lemma runs_from_words (keep : char -> bool) (word s : str) :
  forallb keep word = true ->
  Forall (fun w => w <> [] /\ forallb keep w = true)
    (runs_from keep word s).
Proof.
  revert word. induction s as [|c s IH]; intros word Hword; simpl.
  - destruct word as [|x word]; constructor; [|constructor].
    split; [|now apply forallb_rev].
    intros E. apply (f_equal (@List.length char)) in E.
    rewrite length_rev in E. discriminate.
  - destruct (keep c) eqn:Ec.
    + apply IH. simpl. now rewrite Ec.
    + destruct word as [|x word]; [now apply IH|].
      constructor; [|now apply IH].
      split; [|now apply forallb_rev].
      intros E. apply (f_equal (@List.length char)) in E.
      rewrite length_rev in E. discriminate.
Qed.

Lemma runs_from_contains (keep : char -> bool) (word s : str) :
  Forall (fun w => contains w (rev word ++ s) = true)
    (runs_from keep word s).
Proof.
  revert word. induction s as [|c s IH]; intros word; simpl.
  - destruct word as [|x word]; constructor; [|constructor].
    apply contains_prefix.
  - destruct (keep c).
    + specialize (IH (c :: word)). simpl in IH.
      now rewrite <- app_assoc in IH.
    + assert (Hrest : Forall (fun w => contains w (rev word ++ c :: s) = true)
                        (runs_from keep [] s)).
      { eapply Forall_impl; [|exact (IH [])]. simpl. intros w Hw.
        now apply contains_app_l, contains_cons. }
      destruct word as [|x word]; [exact Hrest|].
      constructor; [apply contains_prefix | exact Hrest].
Qed.

(** Every word [_get_en_words] returns is non-empty, made of ASCII
    letters and digits only, and occurs in the sentence it was taken
    from. *)
Theorem AugumentForZhFilter_words (s : str) :
  Forall (fun w => w <> []
                   /\ forallb AugumentForZhFilter.en_word_char w = true
                   /\ contains w s = true)
    (AugumentForZhFilter._get_en_words s).
Proof.
  unfold AugumentForZhFilter._get_en_words.
  pose proof (runs_from_words AugumentForZhFilter.en_word_char [] s eq_refl)
    as H1.
  pose proof (runs_from_contains AugumentForZhFilter.en_word_char [] s)
    as H2.
  simpl in H2. rewrite Forall_forall in *. intros w Hw.
  destruct (H1 w Hw). auto.
Qed.

Lemma exist_own_words (s : str) :
  AugumentForZhFilter._exist (AugumentForZhFilter._get_en_words s) s = true.
Proof.
  unfold AugumentForZhFilter._exist, AugumentForZhFilter._get_en_words.
  apply forallb_forall. intros w Hw.
  pose proof (runs_from_contains AugumentForZhFilter.en_word_char [] s) as H.
  rewrite Forall_forall in H. exact (H w Hw).
Qed.

(** A pair of identical sides is always kept, a pair in which neither
    side holds an ASCII letter or digit is always kept, and the decision is
    the same when the two sides are exchanged. *)
Theorem AugumentForZhFilter_symmetric (src tgt : str) :
  AugumentForZhFilter.filter src src = Some (src, src)
  /\ (forallb (fun c => negb (AugumentForZhFilter.en_word_char c)) src = true ->
      forallb (fun c => negb (AugumentForZhFilter.en_word_char c)) tgt = true ->
      AugumentForZhFilter.filter src tgt = Some (src, tgt))
  /\ (AugumentForZhFilter.filter src tgt = None
      <-> AugumentForZhFilter.filter tgt src = None).
Proof.
  unfold AugumentForZhFilter.filter. split; [|split].
  - now rewrite exist_own_words.
  - intros Hs Ht. unfold AugumentForZhFilter._get_en_words.
    rewrite (proj2 (runs_from_nil_iff _ [] src) (conj eq_refl Hs)).
    rewrite (proj2 (runs_from_nil_iff _ [] tgt) (conj eq_refl Ht)).
    reflexivity.
  - destruct (AugumentForZhFilter._exist _ tgt),
      (AugumentForZhFilter._exist _ src); simpl; split; intros H;
      try reflexivity; discriminate.
Qed.

(* ================================================================== *)
(** * Further properties of the normalizers *)
(* ================================================================== *)

(** ** SpaceNormalizer *)

Lemma SpaceNormalizer_result (is_ascii_char : char -> bool) (x : str) :
  canonical (SpaceNormalizer.normalize is_ascii_char x)
  /\ settled is_ascii_char None (SpaceNormalizer.normalize is_ascii_char x)
     = true.
Proof.
  unfold SpaceNormalizer.normalize.
  set (t := strip (SpaceNormalizer.sub_space_runs false
                     (replace [0xA0%N] [space]
                        (replace [0x3000%N] [space] (strip x))))).
  assert (Ht : canonical t).
  { apply strip_canonical.
    - apply sub_space_runs_forallb; [reflexivity | apply replaced_plain].
    - apply sub_space_runs_pairs. }
  split.
  - now apply drop_spaces_canonical.
  - apply drop_spaces_settled; [apply Ht | trivial].
Qed.

(** The result never starts or ends with whitespace, holds neither U+3000
    nor U+00A0 nor two whitespace characters in a row, and every space left
    in it stands between two characters that [is_ascii_char] accepts. The
    strings with these properties are exactly the ones the normalizer
    leaves unchanged. *)
Theorem SpaceNormalizer_fixed_points (is_ascii_char : char -> bool)
  (x : str) :
  (canonical (SpaceNormalizer.normalize is_ascii_char x)
   /\ settled is_ascii_char None (SpaceNormalizer.normalize is_ascii_char x)
      = true)
  /\ (SpaceNormalizer.normalize is_ascii_char x = x
      <-> canonical x /\ settled is_ascii_char None x = true).
Proof.
  pose proof (SpaceNormalizer_result is_ascii_char x) as Hres.
  split; [exact Hres|]. split.
  - intros E. now rewrite E in Hres.
  - intros [Hc Hs]. unfold SpaceNormalizer.normalize.
    rewrite (canonical_fixed x Hc). now apply settled_fixed.
Qed.

Lemma lstrip_length (s : str) :
  (List.length (lstrip s) <= List.length s)%nat.
Proof.
  induction s as [|c s IH]; simpl; [lia|].
  destruct (isspace c); simpl; lia.
Qed.

Lemma rstrip_length (s : str) :
  (List.length (rstrip s) <= List.length s)%nat.
Proof.
  induction s as [|c s IH]; simpl; [lia|].
  destruct (rstrip s); [destruct (isspace c)|]; simpl in *; lia.
Qed.

Lemma strip_length (s : str) :
  (List.length (strip s) <= List.length s)%nat.
Proof.
  unfold strip. pose proof (rstrip_length (lstrip s)).
  pose proof (lstrip_length s). lia.
Qed.

Lemma sub_space_runs_length (in_run : bool) (s : str) :
  (List.length (SpaceNormalizer.sub_space_runs in_run s)
   <= List.length s)%nat.
Proof.
  revert in_run. induction s as [|c s IH]; intros in_run; [simpl; lia|].
  pose proof (IH true). pose proof (IH false).
  cbn [SpaceNormalizer.sub_space_runs].
  destruct (isspace c); [destruct in_run|]; simpl; try lia.
  destruct s as [|d s]; [simpl; lia|].
  destruct (isspace d); simpl in *; lia.
Qed.

Lemma drop_spaces_length (is_ascii_char : char -> bool) (p : option char)
  (s : str) :
  (List.length (SpaceNormalizer.drop_spaces is_ascii_char p s)
   <= List.length s)%nat.
Proof.
  revert p. induction s as [|c s IH]; intros p; [simpl; lia|].
  specialize (IH (Some c)).
  destruct (drop_spaces_cons is_ascii_char p c s) as [-> | ->]; simpl; lia.
Qed.

Lemma has_ink_blank (s : str) : has_ink s = false <-> blank s.
Proof.
  unfold has_ink, blank. induction s as [|c s IH]; simpl; [tauto|].
  rewrite orb_false_iff, andb_true_iff, IH, negb_false_iff. tauto.
Qed.

Lemma lstrip_ink (s : str) : has_ink (lstrip s) = has_ink s.
Proof.
  unfold has_ink. induction s as [|c s IH]; simpl; [reflexivity|].
  destruct (isspace c) eqn:E; simpl; [exact IH | now rewrite E].
Qed.

Lemma rstrip_ink (s : str) : has_ink (rstrip s) = has_ink s.
Proof.
  unfold has_ink. induction s as [|c s IH]; simpl; [reflexivity|].
  destruct (rstrip s) as [|k ks] eqn:E.
  - rewrite <- IH. simpl. destruct (isspace c) eqn:Ec; simpl;
      [reflexivity | now rewrite Ec].
  - rewrite <- IH. reflexivity.
Qed.

Lemma replace_single_ink (a : char) (s : str) :
  isspace a = true -> has_ink (replace [a] [space] s) = has_ink s.
Proof.
  intros Ha. rewrite replace_single. unfold has_ink.
  induction s as [|c s IH]; simpl; [reflexivity|]. rewrite IH. f_equal.
  destruct (N.eqb_spec a c) as [<-|_]; [now rewrite Ha | reflexivity].
Qed.

Lemma sub_space_runs_ink (in_run : bool) (s : str) :
  has_ink (SpaceNormalizer.sub_space_runs in_run s) = has_ink s.
Proof.
  unfold has_ink. revert in_run.
  induction s as [|c s IH]; intros in_run; [reflexivity|].
  cbn [SpaceNormalizer.sub_space_runs existsb].
  destruct (isspace c) eqn:Ec; simpl.
  - destruct in_run; [apply IH|].
    destruct s as [|d s]; [simpl; now rewrite Ec|].
    destruct (isspace d) eqn:Ed.
    + cbn [existsb]. rewrite IH. reflexivity.
    + cbn [existsb]. rewrite Ec, IH. reflexivity.
  - now rewrite Ec.
Qed.

Lemma drop_spaces_ink (is_ascii_char : char -> bool) (p : option char)
  (s : str) :
  has_ink (SpaceNormalizer.drop_spaces is_ascii_char p s) = has_ink s.
Proof.
  unfold has_ink. revert p.
  induction s as [|c s IH]; intros p; [reflexivity|].
  cbn [SpaceNormalizer.drop_spaces existsb].
  destruct (N.eqb_spec c space) as [->|_]; cbn [andb].
  - destruct (_ || _); cbn [existsb]; rewrite IH; reflexivity.
  - cbn [existsb]. now rewrite IH.
Qed.

Lemma SpaceNormalizer_empty_iff (is_ascii_char : char -> bool) (x : str) :
  SpaceNormalizer.normalize is_ascii_char x = [] <-> blank x.
Proof.
  assert (Hink : has_ink (SpaceNormalizer.normalize is_ascii_char x)
                 = has_ink x).
  { unfold SpaceNormalizer.normalize, strip.
    rewrite drop_spaces_ink, rstrip_ink, lstrip_ink, sub_space_runs_ink.
    rewrite !replace_single_ink by reflexivity.
    now rewrite rstrip_ink, lstrip_ink. }
  rewrite <- has_ink_blank, <- Hink. split.
  - now intros ->.
  - intros H. apply has_ink_blank in H.
    destruct (SpaceNormalizer_result is_ascii_char x) as [[Hh _ _ _] _].
    destruct (SpaceNormalizer.normalize is_ascii_char x) as [|c r];
      [reflexivity|].
    simpl in Hh. unfold blank in H. simpl in H. now rewrite Hh in H.
Qed.

(** The result is never longer than the input, and it is the empty
    string exactly when the input is empty or whitespace only. *)
Theorem SpaceNormalizer_shrinks (is_ascii_char : char -> bool) (x : str) :
  (List.length (SpaceNormalizer.normalize is_ascii_char x)
   <= List.length x)%nat
  /\ (SpaceNormalizer.normalize is_ascii_char x = [] <-> blank x).
Proof.
  split; [|apply SpaceNormalizer_empty_iff].
  unfold SpaceNormalizer.normalize.
  eapply Nat.le_trans; [apply drop_spaces_length|].
  eapply Nat.le_trans; [apply strip_length|].
  eapply Nat.le_trans; [apply sub_space_runs_length|].
  rewrite !replace_single, !length_map. apply strip_length.
Qed.

Lemma drop_spaces_accepted (is_ascii_char : char -> bool)
  (p : option char) (t : str) :
  match p with Some c => is_ascii_char c = true | None => True end ->
  forallb is_ascii_char t = true ->
  SpaceNormalizer.drop_spaces is_ascii_char p t = t.
Proof.
  revert p. induction t as [|c t IH]; intros p Hp Ht; [reflexivity|].
  simpl in Ht. apply andb_true_iff in Ht as [Hc Ht].
  cbn [SpaceNormalizer.drop_spaces].
  assert (E1 : match p with
               | Some p0 => negb (is_ascii_char p0)
               | None => false
               end = false)
    by (destruct p; [now rewrite Hp | reflexivity]).
  assert (E2 : match t with
               | n :: _ => negb (is_ascii_char n)
               | [] => false
               end = false).
  { destruct t as [|n t']; [reflexivity|]. simpl in Ht.
    apply andb_true_iff in Ht as [-> _]. reflexivity. }
  rewrite E1, E2, andb_false_r. now rewrite (IH (Some c) Hc Ht).
Qed.

(** On a text all of whose characters [is_ascii_char] accepts (the space
    included) no space is dropped: the result is the trimmed text with its
    whitespace runs collapsed, so single spaces between words stay. *)
Theorem SpaceNormalizer_accepted_text (is_ascii_char : char -> bool)
  (x : str) :
  is_ascii_char space = true -> forallb is_ascii_char x = true ->
  SpaceNormalizer.normalize is_ascii_char x
  = strip (SpaceNormalizer.sub_space_runs false
             (replace [0xA0%N] [space]
                (replace [0x3000%N] [space] (strip x)))).
Proof.
  intros Hsp Hx. unfold SpaceNormalizer.normalize.
  apply drop_spaces_accepted; [exact I|].
  apply strip_forallb, sub_space_runs_forallb; [exact Hsp|].
  rewrite !replace_single, map_map. apply forallb_forall.
  intros c Hc. apply in_map_iff in Hc as [d [<- Hd]].
  assert (Hd' : is_ascii_char d = true).
  { pose proof (strip_forallb is_ascii_char x Hx) as Hs.
    rewrite forallb_forall in Hs. now apply Hs. }
  destruct (0x3000 =? d)%N; [now destruct (0xA0 =? space)%N|].
  now destruct (0xA0 =? d)%N.
Qed.

Lemma SpaceNormalizer_accepted_text_witness :
  is_ascii_cp space = true
  /\ forallb is_ascii_cp (lit " a  b c ") = true
  /\ SpaceNormalizer.normalize is_ascii_cp (lit " a  b c ") = lit "a b c".
Proof.
  split; [reflexivity|]. split; [reflexivity|].
  rewrite (SpaceNormalizer_accepted_text is_ascii_cp (lit " a  b c ")
             eq_refl eq_refl).
  reflexivity.
Defined.

(** [EmptyFilter] decides the same on a pair and on the pair with both
    sides normalized by [SpaceNormalizer]. *)
Theorem EmptyFilter_after_SpaceNormalizer (is_ascii_char : char -> bool)
  (src tgt : str) :
  EmptyFilter.filter (SpaceNormalizer.normalize is_ascii_char src)
    (SpaceNormalizer.normalize is_ascii_char tgt) = None
  <-> EmptyFilter.filter src tgt = None.
Proof.
  assert (H : forall a b, EmptyFilter.filter a b = None
                          <-> blank a \/ blank b).
  { intros a b. unfold EmptyFilter.filter, blank.
    rewrite <- !strip_nil_iff, <- !len_zero_iff.
    destruct (len (strip a) =? 0)%Z, (len (strip b) =? 0)%Z; simpl;
      split; auto; try discriminate; intros [E|E]; discriminate. }
  rewrite !H.
  assert (Hb : forall s, blank (SpaceNormalizer.normalize is_ascii_char s)
                         <-> blank s).
  { intros s. rewrite <- (SpaceNormalizer_empty_iff is_ascii_char s).
    split.
    - intros Hbl.
      destruct (SpaceNormalizer_result is_ascii_char s) as [[Hh _ _ _] _].
      destruct (SpaceNormalizer.normalize is_ascii_char s) as [|c r];
        [reflexivity|].
      simpl in Hh. unfold blank in Hbl. simpl in Hbl.
      now rewrite Hh in Hbl.
    - now intros ->. }
  now rewrite !Hb.
Qed.

(** ** NoPrintNormalizer *)

(** The result holds exactly the characters of the input that are not C0
    controls (tab apart) or DEL, in their order: the normalizer works
    character by character, so it distributes over concatenation, and it
    leaves a string unchanged exactly when the string holds none of them. *)
Theorem NoPrintNormalizer_spec (s t : str) :
  (forall c, In c (NoPrintNormalizer.normalize s)
             <-> In c s /\ NoPrintNormalizer.unprintable c = false)
  /\ NoPrintNormalizer.normalize (s ++ t)
     = NoPrintNormalizer.normalize s ++ NoPrintNormalizer.normalize t
  /\ (NoPrintNormalizer.normalize s = s
      <-> forallb (fun c => negb (NoPrintNormalizer.unprintable c)) s = true)
  /\ (forall c, NoPrintNormalizer.unprintable c = true
                <-> (c < 0x20 /\ c <> tab \/ c = 0x7F)%N).
Proof.
  unfold NoPrintNormalizer.normalize. split; [|split; [|split]].
  - intros c. rewrite filter_In, negb_true_iff. tauto.
  - apply filter_app.
  - split.
    + intros H. rewrite <- filter_all_iff. now rewrite H.
    + intros H. induction s as [|c s IH]; [reflexivity|].
      simpl in *. apply andb_true_iff in H as [-> H]. now rewrite IH.
  - intros c. unfold NoPrintNormalizer.unprintable, tab.
    decide_comparisons; simpl; split; intros H; try discriminate;
      try reflexivity; lia.
Qed.

(** ** normalize_pair_punct: what a scan leaves alone *)

Lemma normalize_pair_punct_steps (s : str) (l r : char) :
  exists u,
    open_scan l r (replace [r; r] [] (replace [l; l] [] s)) u
    /\ close_scan l r u (normalize_pair_punct s l r).
Proof.
  unfold normalize_pair_punct. cbv zeta.
  rewrite !replace_triple_after_pair.
  eexists. split; [apply open_step_scan | apply close_step_scan].
Qed.

Lemma first_occurrence_unique (c : char) (pre pre' post post' : str) :
  pre ++ c :: post = pre' ++ c :: post' ->
  ~ In c pre -> ~ In c pre' -> pre = pre' /\ post = post'.
Proof.
  revert pre'. induction pre as [|x pre IH]; intros [|y pre'] E H H'.
  - injection E as <-. auto.
  - injection E as <- _. elim H'. now left.
  - injection E as -> _. elim H. now left.
  - injection E as <- E. destruct (IH pre' E) as [<- <-]; auto.
    + intros Hin. apply H. now right.
    + intros Hin. apply H'. now right.
Qed.

Lemma open_scan_absent (l r : char) (t u : str) :
  open_scan l r t u -> ~ In l t -> u = t.
Proof.
  intros H Hl. inversion H; subst; try reflexivity.
  elim Hl. apply in_or_app. right. now left.
Qed.

Lemma close_scan_absent (l r : char) (t u : str) :
  close_scan l r t u -> ~ In r t -> u = t.
Proof.
  intros H Hr. inversion H; subst; try reflexivity.
  elim Hr. apply in_or_app. right. now left.
Qed.

Lemma open_scan_at (l r : char) (pre post u : str) :
  open_scan l r (pre ++ l :: post) u -> ~ In l pre ->
  (In r post -> u = pre ++ l :: post)
  /\ (~ In r post -> u = pre ++ post).
Proof.
  intros H Hpre. inversion H as [t Ht|p q Hp Hq E|p q Hp Hq E]; subst.
  - elim Ht. apply in_or_app. right. now left.
  - split; [reflexivity|]. intros Hout.
    destruct (first_occurrence_unique l p pre q post E Hp Hpre) as [-> ->].
    contradiction.
  - destruct (first_occurrence_unique l p pre q post E Hp Hpre) as [-> ->].
    split; [intros Hin; contradiction | reflexivity].
Qed.

Lemma close_scan_at (l r : char) (pre post u : str) :
  close_scan l r (pre ++ r :: post) u -> ~ In r pre ->
  (In l pre -> u = pre ++ r :: post)
  /\ (~ In l pre -> u = pre ++ post).
Proof.
  intros H Hpre. inversion H as [t Ht|p q Hp Hq E|p q Hp Hq E]; subst.
  - elim Ht. apply in_or_app. right. now left.
  - split; [reflexivity|]. intros Hout.
    destruct (first_occurrence_unique r p pre q post E Hp Hpre) as [-> ->].
    contradiction.
  - destruct (first_occurrence_unique r p pre q post E Hp Hpre) as [-> ->].
    split; [intros Hin; contradiction | reflexivity].
Qed.

Lemma open_scan_filter (q : char -> bool) (l r : char) (t u : str) :
  q l = false -> open_scan l r t u ->
  List.filter q u = List.filter q t
  /\ (List.length u <= List.length t)%nat.
Proof.
  intros Hq H. inversion H; subst; try (split; [reflexivity | lia]).
  rewrite !filter_app, !length_app. simpl. rewrite Hq. split; [reflexivity | lia].
Qed.

Lemma close_scan_filter (q : char -> bool) (l r : char) (t u : str) :
  q r = false -> close_scan l r t u ->
  List.filter q u = List.filter q t
  /\ (List.length u <= List.length t)%nat.
Proof.
  intros Hq H. inversion H; subst; try (split; [reflexivity | lia]).
  rewrite !filter_app, !length_app. simpl. rewrite Hq. split; [reflexivity | lia].
Qed.

Lemma replace_pair_filter (q : char -> bool) (c : char) (s : str) :
  q c = false ->
  List.filter q (replace [c; c] [] s) = List.filter q s
  /\ (List.length (replace [c; c] [] s) <= List.length s)%nat.
Proof.
  intros Hq.
  assert (H : forall n s, (List.length s <= n)%nat ->
            List.filter q (replace [c; c] [] s) = List.filter q s
            /\ (List.length (replace [c; c] [] s) <= List.length s)%nat).
  { clear s. induction n as [|n IH]; intros [|x rest] Hlen;
      try (split; [reflexivity | simpl; lia]); [simpl in Hlen; lia|].
    simpl in Hlen.
    destruct (starts_with [c; c] (x :: rest)) eqn:E.
    - apply starts_with_pair in E as [-> [rest' ->]].
      rewrite replace_pair_here. simpl in Hlen.
      destruct (IH rest') as [Hf Hl]; [lia|].
      simpl. rewrite Hq. split; [exact Hf | lia].
    - rewrite (replace_pair_later c x rest E).
      destruct (IH rest) as [Hf Hl]; [lia|].
      simpl. rewrite Hf. split; [reflexivity | lia]. }
  now apply (H (List.length s)).
Qed.

Lemma contains_absent (c : char) (w t : str) :
  ~ In c t -> contains (c :: w) t = false.
Proof.
  induction t as [|x t IH]; intros H; [reflexivity|].
  simpl. destruct (N.eqb_spec c x) as [->|_].
  - elim H. now left.
  - simpl. apply IH. intros Hin. apply H. now right.
Qed.

Lemma normalize_pair_punct_keeps (q : char -> bool) (s : str)
  (l r : char) :
  q l = false -> q r = false ->
  List.filter q (normalize_pair_punct s l r) = List.filter q s
  /\ (List.length (normalize_pair_punct s l r) <= List.length s)%nat.
Proof.
  intros Hl Hr.
  destruct (normalize_pair_punct_steps s l r) as (u & Ho & Hc).
  destruct (close_scan_filter q l r _ _ Hr Hc) as [F1 L1].
  destruct (open_scan_filter q l r _ _ Hl Ho) as [F2 L2].
  destruct (replace_pair_filter q r (replace [l; l] [] s) Hr) as [F3 L3].
  destruct (replace_pair_filter q l s Hl) as [F4 L4].
  split; [congruence | lia].
Qed.

Lemma normalize_pair_punct_no_bracket (s : str) (l r : char) :
  ~ In l s -> ~ In r s -> normalize_pair_punct s l r = s.
Proof.
  intros Hl Hr.
  destruct (normalize_pair_punct_steps s l r) as (u & Ho & Hc).
  rewrite (replace_no_match [l; l] [] s (contains_absent l [l] s Hl)) in Ho.
  rewrite (replace_no_match [r; r] [] s (contains_absent r [r] s Hr)) in Ho.
  apply open_scan_absent in Ho; [subst u | exact Hl].
  now apply close_scan_absent in Hc.
Qed.

(** A scan only ever deletes occurrences of its two brackets: every other
    character stays, in order; the result is never longer than the input;
    and a string holding neither bracket is returned unchanged. *)
Theorem normalize_pair_punct_frame (s : str) (l r : char) :
  List.filter (fun c => negb (c =? l)%N && negb (c =? r)%N)
    (normalize_pair_punct s l r)
  = List.filter (fun c => negb (c =? l)%N && negb (c =? r)%N) s
  /\ (List.length (normalize_pair_punct s l r) <= List.length s)%nat
  /\ (~ In l s -> ~ In r s -> normalize_pair_punct s l r = s).
Proof.
  split; [|split].
  - apply normalize_pair_punct_keeps.
    + now rewrite N.eqb_refl.
    + rewrite N.eqb_refl. apply andb_false_r.
  - apply (normalize_pair_punct_keeps (fun _ => false)); reflexivity.
  - apply normalize_pair_punct_no_bracket.
Qed.

(** ** PairPunctNormalizer *)

Section NormalizePairs.
Variable pairs : list (char * char).

Local Abbreviation step :=
  (fun (st : str * str) (p : char * char) =>
     (normalize_pair_punct (fst st) (fst p) (snd p),
      normalize_pair_punct (snd st) (fst p) (snd p))).

Lemma fold_pairs_keeps (q : char -> bool) (a b : str) :
  (forall p, In p pairs -> q (fst p) = false /\ q (snd p) = false) ->
  (List.filter q (fst (fold_left step pairs (a, b))) = List.filter q a
   /\ (List.length (fst (fold_left step pairs (a, b)))
       <= List.length a)%nat)
  /\ (List.filter q (snd (fold_left step pairs (a, b))) = List.filter q b
      /\ (List.length (snd (fold_left step pairs (a, b)))
          <= List.length b)%nat).
Proof.
  revert a b. induction pairs as [|p ps IH]; intros a b Hq.
  - simpl. repeat split; lia.
  - simpl. destruct (Hq p (or_introl eq_refl)) as [Hl Hr].
    destruct (IH (normalize_pair_punct a (fst p) (snd p))
                (normalize_pair_punct b (fst p) (snd p)))
      as [[Fa La] [Fb Lb]]; [intros p' Hp'; apply Hq; now right|].
    destruct (normalize_pair_punct_keeps q a (fst p) (snd p) Hl Hr)
      as [Fa' La'].
    destruct (normalize_pair_punct_keeps q b (fst p) (snd p) Hl Hr)
      as [Fb' Lb'].
    cbn [fst snd] in *.
    repeat split; try congruence; lia.
Qed.

Lemma fold_pairs_no_bracket (a b : str) :
  (forall p, In p pairs -> ~ In (fst p) a /\ ~ In (snd p) a) ->
  fst (fold_left step pairs (a, b)) = a.
Proof.
  revert b. induction pairs as [|p ps IH]; intros b H; [reflexivity|].
  simpl. destruct (H p (or_introl eq_refl)) as [Hl Hr].
  cbn [fst snd].
  rewrite (normalize_pair_punct_no_bracket a (fst p) (snd p) Hl Hr).
  apply IH. intros p' Hp'. apply H. now right.
Qed.

Lemma fold_pairs_no_bracket_snd (a b : str) :
  (forall p, In p pairs -> ~ In (fst p) b /\ ~ In (snd p) b) ->
  snd (fold_left step pairs (a, b)) = b.
Proof.
  revert a. induction pairs as [|p ps IH]; intros a H; [reflexivity|].
  simpl. destruct (H p (or_introl eq_refl)) as [Hl Hr].
  cbn [fst snd].
  rewrite (normalize_pair_punct_no_bracket b (fst p) (snd p) Hl Hr).
  apply IH. intros p' Hp'. apply H. now right.
Qed.

End NormalizePairs.

Lemma is_punct_bracket (p : char * char) :
  In p punct_pairs -> is_punct (fst p) = true /\ is_punct (snd p) = true.
Proof.
  intros H. unfold is_punct. split; apply existsb_exists; exists p;
    (split; [exact H|]); rewrite N.eqb_refl; [reflexivity|].
  apply orb_true_r.
Qed.

Lemma no_punct_no_bracket (s : str) (p : char * char) :
  forallb (fun c => negb (is_punct c)) s = true -> In p punct_pairs ->
  ~ In (fst p) s /\ ~ In (snd p) s.
Proof.
  intros Hs Hp. destruct (is_punct_bracket p Hp) as [Hl Hr].
  rewrite forallb_forall in Hs.
  split; intros Hin; apply Hs in Hin; [rewrite Hl in Hin | rewrite Hr in Hin];
    discriminate.
Qed.

Lemma normalize_pair_no_punct (a b : str) :
  (forallb (fun c => negb (is_punct c)) a = true ->
   fst (PairPunctNormalizer.normalize_pair a b) = a)
  /\ (forallb (fun c => negb (is_punct c)) b = true ->
      snd (PairPunctNormalizer.normalize_pair a b) = b).
Proof.
  unfold PairPunctNormalizer.normalize_pair. split; intros Hs.
  - apply fold_pairs_no_bracket.
    intros p Hp. now apply no_punct_no_bracket.
  - apply fold_pairs_no_bracket_snd.
    intros p Hp. now apply no_punct_no_bracket.
Qed.

(** On each side [normalize_pair] only deletes brackets of [punct_pairs]:
    all other characters stay, in order, and no side grows. A side with
    none of these brackets is returned unchanged. *)
Theorem PairPunctNormalizer_normalize_pair_frame (src tgt : str) :
  (List.filter (fun c => negb (is_punct c))
     (fst (PairPunctNormalizer.normalize_pair src tgt))
   = List.filter (fun c => negb (is_punct c)) src
   /\ (List.length (fst (PairPunctNormalizer.normalize_pair src tgt))
       <= List.length src)%nat)
  /\ (List.filter (fun c => negb (is_punct c))
        (snd (PairPunctNormalizer.normalize_pair src tgt))
      = List.filter (fun c => negb (is_punct c)) tgt
      /\ (List.length (snd (PairPunctNormalizer.normalize_pair src tgt))
          <= List.length tgt)%nat)
  /\ (forallb (fun c => negb (is_punct c)) src = true ->
      fst (PairPunctNormalizer.normalize_pair src tgt) = src)
  /\ (forallb (fun c => negb (is_punct c)) tgt = true ->
      snd (PairPunctNormalizer.normalize_pair src tgt) = tgt).
Proof.
  unfold PairPunctNormalizer.normalize_pair.
  pose proof (fold_pairs_keeps punct_pairs (fun c => negb (is_punct c))
                src tgt) as Hkeep.
  destruct Hkeep as [Ha Hb].
  { intros p Hp. destruct (is_punct_bracket p Hp) as [-> ->]. now split. }
  split; [exact Ha|]. split; [exact Hb|].
  exact (normalize_pair_no_punct src tgt).
Qed.

(** *** Fields of a line *)

Lemma split_on_app (sep : char) (a rest : str) :
  ~ In sep a -> split_on sep (a ++ sep :: rest) = a :: split_on sep rest.
Proof.
  induction a as [|c a IH]; intros H; simpl.
  - now rewrite N.eqb_refl.
  - destruct (N.eqb_spec c sep) as [->|_]; [elim H; now left|].
    rewrite IH; [reflexivity|]. intros Hin. apply H. now right.
Qed.

Lemma split_on_present (sep : char) (s : str) :
  In sep s ->
  exists a b fields, split_on sep s = a :: b :: fields.
Proof.
  induction s as [|c s IH]; intros H; [contradiction|]. simpl.
  destruct (N.eqb_spec c sep) as [->|Hc].
  - destruct (split_on sep s) as [|b fields] eqn:E; [|eauto].
    destruct s; simpl in E; [discriminate|].
    destruct (_ =? _)%N; [discriminate|].
    destruct (split_on sep s); discriminate.
  - destruct H as [H|H]; [congruence|].
    destruct (IH H) as (a & b & fields & ->). eauto.
Qed.

(** [PairPunctNormalizer.normalize] returns exactly on the lines that
    hold a tab. Of a line with more than two fields only the first two are
    read, the rest is dropped from the result. A two-field line with none
    of the brackets of [punct_pairs] is returned unchanged. *)
Theorem PairPunctNormalizer_normalize_fields (s : str) :
  ((exists out, PairPunctNormalizer.normalize s = Ok out) <-> In tab s)
  /\ (forall a b rest,
        s = a ++ tab :: b ++ tab :: rest -> ~ In tab a -> ~ In tab b ->
        PairPunctNormalizer.normalize s
        = PairPunctNormalizer.normalize (a ++ tab :: b))
  /\ (forall a b,
        s = a ++ tab :: b -> ~ In tab a -> ~ In tab b ->
        forallb (fun c => negb (is_punct c)) s = true ->
        PairPunctNormalizer.normalize s = Ok s).
Proof.
  split; [|split].
  - split.
    + intros [out H]. destruct (in_dec N.eq_dec tab s) as [Hin|Hout];
        [exact Hin|].
      unfold PairPunctNormalizer.normalize in H.
      rewrite (split_on_absent tab s Hout) in H.
      unfold index in H. cbn [nth_error] in H. unfold bind in H.
      discriminate.
    + intros Hin. destruct (split_on_present tab s Hin)
        as (a & b & fields & E).
      unfold PairPunctNormalizer.normalize, index. rewrite E.
      cbn [nth_error]. unfold bind. eauto.
  - intros a b rest -> Ha Hb. unfold PairPunctNormalizer.normalize.
    rewrite !(split_on_app tab a _ Ha), (split_on_app tab b _ Hb).
    rewrite (split_on_absent tab b Hb). reflexivity.
  - intros a b -> Ha Hb Hs. unfold PairPunctNormalizer.normalize.
    rewrite (split_on_app tab a _ Ha), (split_on_absent tab b Hb).
    rewrite forallb_app in Hs. apply andb_true_iff in Hs as [Hsa Hsb].
    cbn [forallb] in Hsb. apply andb_true_iff in Hsb as [_ Hsb].
    destruct (normalize_pair_no_punct a b) as [E1 E2].
    unfold index. cbn [nth_error]. unfold bind.
    now rewrite (E1 Hsa), (E2 Hsb).
Qed.

(** *** A single well-formed pair of brackets *)

Lemma starts_with_absent (c : char) (b : str) :
  ~ In c b -> starts_with [c] b = false.
Proof.
  destruct b as [|y b]; [reflexivity|]. intros H. simpl.
  destruct (N.eqb_spec c y) as [->|_]; [elim H; now left | reflexivity].
Qed.

Lemma contains_pair_app (c : char) (a b : str) :
  ~ In c a -> starts_with [c] b = false ->
  contains [c; c] (a ++ c :: b) = contains [c; c] b.
Proof.
  intros Ha Hb. induction a as [|x a IH].
  - cbn [app contains starts_with]. rewrite N.eqb_refl.
    cbn [andb]. change (starts_with [c] b || contains [c; c] b
                        = contains [c; c] b).
    now rewrite Hb.
  - cbn [app contains starts_with].
    destruct (N.eqb_spec c x) as [->|_]; [elim Ha; now left|].
    cbn [andb orb]. apply IH. intros Hin. apply Ha. now right.
Qed.

Lemma no_pair_around (c : char) (a b : str) :
  ~ In c a -> ~ In c b -> contains [c; c] (a ++ c :: b) = false.
Proof.
  intros Ha Hb.
  rewrite (contains_pair_app c a b Ha (starts_with_absent c b Hb)).
  now apply contains_absent.
Qed.

(** A string with exactly one opening bracket and, after it, exactly one
    closing bracket of another character is returned unchanged. *)
Theorem normalize_pair_punct_balanced (l r : char) (pre mid post : str) :
  l <> r ->
  ~ In l pre -> ~ In l mid -> ~ In l post ->
  ~ In r pre -> ~ In r mid -> ~ In r post ->
  normalize_pair_punct (pre ++ l :: mid ++ r :: post) l r
  = pre ++ l :: mid ++ r :: post.
Proof.
  intros Hlr Hl1 Hl2 Hl3 Hr1 Hr2 Hr3.
  set (s := pre ++ l :: mid ++ r :: post).
  destruct (normalize_pair_punct_steps s l r) as (u & Ho & Hc).
  assert (Hl4 : ~ In l (mid ++ r :: post)).
  { intros H. apply in_app_or in H as [H|[H|H]]; auto. }
  assert (Hr4 : ~ In r (pre ++ l :: mid)).
  { intros H. apply in_app_or in H as [H|[H|H]]; auto. }
  assert (Es : s = (pre ++ l :: mid) ++ r :: post)
    by (subst s; now rewrite <- app_assoc).
  rewrite (replace_no_match [l; l] [] s (no_pair_around l pre _ Hl1 Hl4))
    in Ho.
  assert (Hrr : contains [r; r] s = false)
    by (rewrite Es; now apply no_pair_around).
  rewrite (replace_no_match [r; r] [] s Hrr) in Ho.
  destruct (open_scan_at l r pre (mid ++ r :: post) u Ho Hl1) as [Hu _].
  rewrite Hu in Hc by (apply in_or_app; right; now left).
  fold s in Hc. rewrite Es in Hc.
  destruct (close_scan_at l r (pre ++ l :: mid) post _ Hc Hr4) as [Hv _].
  rewrite Es, Hv; [reflexivity|].
  apply in_or_app. right. now left.
Qed.

Lemma normalize_pair_punct_balanced_witness :
  0x28%N <> 0x29%N
  /\ normalize_pair_punct (lit "a " ++ 0x28%N :: lit "b" ++ 0x29%N :: lit " c")
       0x28%N 0x29%N
     = lit "a " ++ 0x28%N :: lit "b" ++ 0x29%N :: lit " c".
Proof.
  assert (H : 0x28%N <> 0x29%N) by discriminate.
  split; [exact H|].
  apply (normalize_pair_punct_balanced 0x28%N 0x29%N
           (lit "a ") (lit "b") (lit " c") H);
    intros Hin; vm_compute in Hin; intuition discriminate.
Defined.

(** When the opening and the closing bracket are the same character (the
    straight double quote of [punct_pairs]), a quoted segment loses its
    opening quote: the first quote is taken for a closing bracket with no
    opening bracket before it. *)
Theorem normalize_pair_punct_same_bracket (q : char) (pre mid post : str) :
  mid <> [] -> ~ In q pre -> ~ In q mid -> ~ In q post ->
  normalize_pair_punct (pre ++ q :: mid ++ q :: post) q q
  = pre ++ mid ++ q :: post.
Proof.
  intros Hmid H1 H2 H3.
  set (s := pre ++ q :: mid ++ q :: post).
  destruct (normalize_pair_punct_steps s q q) as (u & Ho & Hc).
  assert (Hqq : contains [q; q] s = false).
  { subst s. rewrite contains_pair_app; [now apply no_pair_around | exact H1|].
    destruct mid as [|y mid]; [congruence|]. simpl.
    destruct (N.eqb_spec q y) as [->|_]; [elim H2; now left | reflexivity]. }
  rewrite !(replace_no_match [q; q] [] s Hqq) in Ho.
  destruct (open_scan_at q q pre (mid ++ q :: post) u Ho H1) as [Hu _].
  rewrite Hu in Hc by (apply in_or_app; right; now left).
  destruct (close_scan_at q q pre (mid ++ q :: post) _ Hc H1) as [_ Hv].
  now rewrite (Hv H1).
Qed.

Lemma normalize_pair_punct_same_bracket_witness :
  lit "hi" <> []
  /\ normalize_pair_punct (lit "say " ++ 0x22%N :: lit "hi" ++ 0x22%N :: lit "!")
       0x22%N 0x22%N
     = lit "say " ++ lit "hi" ++ 0x22%N :: lit "!".
Proof.
  assert (H : lit "hi" <> []) by discriminate.
  split; [exact H|].
  apply (normalize_pair_punct_same_bracket 0x22%N
           (lit "say ") (lit "hi") (lit "!") H);
    intros Hin; vm_compute in Hin; intuition discriminate.
Defined.

(** ** Hant2Hans *)

(** With both sides switched off the line is returned as it is and
    nothing is printed. Otherwise a line that does not split into exactly
    two fields is printed and returned as it is, and a line of two fields
    comes back with the conversion applied to the sides that are switched
    on, the tab in between. *)
Theorem Hant2Hans_normalize_spec (hant_2_hans : str -> str)
  (self : Hant2Hans.t) (s : str) :
  (Hant2Hans.norm_src self = false -> Hant2Hans.norm_tgt self = false ->
   Hant2Hans.normalize hant_2_hans self s
   = {| Hant2Hans.printed := []; Hant2Hans.returned := s |})
  /\ (Hant2Hans.norm_src self = true \/ Hant2Hans.norm_tgt self = true ->
      List.length (split_on tab s) <> 2%nat ->
      Hant2Hans.normalize hant_2_hans self s
      = {| Hant2Hans.printed := [s]; Hant2Hans.returned := s |})
  /\ (forall a b,
        Hant2Hans.norm_src self = true \/ Hant2Hans.norm_tgt self = true ->
        s = a ++ tab :: b -> ~ In tab a -> ~ In tab b ->
        Hant2Hans.normalize hant_2_hans self s
        = {| Hant2Hans.printed := [];
             Hant2Hans.returned :=
               (if Hant2Hans.norm_src self then hant_2_hans a else a)
               ++ tab
               :: (if Hant2Hans.norm_tgt self then hant_2_hans b else b) |}).
Proof.
  unfold Hant2Hans.normalize. split; [|split].
  - now intros -> ->.
  - intros Hon Hlen.
    assert (E : negb (Hant2Hans.norm_src self)
                && negb (Hant2Hans.norm_tgt self) = false)
      by (destruct Hon as [-> | ->]; [reflexivity | apply andb_false_r]).
    rewrite E.
    destruct (split_on tab s) as [|a [|b [|c rest]]]; try reflexivity.
    now elim Hlen.
  - intros a b Hon -> Ha Hb.
    assert (E : negb (Hant2Hans.norm_src self)
                && negb (Hant2Hans.norm_tgt self) = false)
      by (destruct Hon as [-> | ->]; [reflexivity | apply andb_false_r]).
    rewrite E, (split_on_app tab a b Ha), (split_on_absent tab b Hb).
    reflexivity.
Qed.

(** ** The two length functions of LengthFilter *)

Lemma runs_from_count (keep : char -> bool) (word s : str) :
  (List.length (runs_from keep word s)
   <= List.length s + match word with [] => 0 | _ => 1 end)%nat.
Proof.
  revert word. induction s as [|c s IH]; intros word; simpl.
  - destruct word; simpl; lia.
  - destruct (keep c).
    + specialize (IH (c :: word)). simpl in IH. destruct word; lia.
    + specialize (IH []). simpl in IH. destruct word; simpl; lia.
Qed.

(** The token count never exceeds the character count; it is zero
    exactly on an empty or whitespace-only string, the character count
    only on the empty string. *)
Theorem LengthFilter_length_functions (s : str) :
  (0 <= LengthFilter.space_sep_len_f s <= LengthFilter.char_len_f s)%Z
  /\ (LengthFilter.space_sep_len_f s = 0%Z <-> blank s)
  /\ (LengthFilter.char_len_f s = 0%Z <-> s = []).
Proof.
  unfold LengthFilter.space_sep_len_f, LengthFilter.char_len_f, len.
  split; [|split].
  - pose proof (runs_from_count (fun c => negb (isspace c)) [] s) as H.
    unfold split. simpl in H. lia.
  - rewrite <- split_nil_iff. destruct (split s); simpl; split;
      intros H; try reflexivity; try discriminate; lia.
  - destruct s; simpl; split; intros H; try reflexivity; try discriminate;
      lia.
Qed.

(* ================================================================== *)
(** * SameFilter on a source and its upper case, beyond ASCII *)
(* ================================================================== *)

Section RoundTrip.
Variable db : case_db.

Local Abbreviation no_sigma := (fun u : char => negb (u =? capital_sigma)%N).
Local Abbreviation no_space := (fun u : char => negb (isspace u)).

Lemma round_trips_facts (c : char) :
  round_trips db c = true ->
  no_sigma c = true
  /\ forallb no_sigma (ToUpperFull db c) = true
  /\ flat_map (ToLowerFull db) (ToUpperFull db c) = ToLowerFull db c
  /\ (if isspace c then ToUpperFull db c = [c]
      else ToUpperFull db c <> []
           /\ forallb no_space (ToUpperFull db c) = true).
Proof.
  unfold round_trips. cbv zeta. rewrite !andb_true_iff.
  intros [[[H1 H2] H3] H4]. apply str_eqb_eq in H3.
  repeat split; try assumption.
  destruct (isspace c).
  - now apply str_eqb_eq.
  - apply andb_true_iff in H4 as [H4 H5]. split; [|exact H5].
    intros E. rewrite E in H4. discriminate.
Qed.

Lemma lower_from_no_sigma (before s : str) :
  forallb no_sigma s = true ->
  lower_from db before s = flat_map (ToLowerFull db) s.
Proof.
  revert before. induction s as [|c s IH]; intros before; [reflexivity|].
  cbn [forallb lower_from flat_map]. rewrite andb_true_iff.
  intros [Hc Hs]. apply negb_true_iff in Hc. unfold capital_sigma in Hc.
  rewrite Hc. now rewrite (IH (c :: before) Hs).
Qed.

Lemma flat_map_ascii (s : str) :
  ascii_consistent db -> forallb is_ascii_cp s = true ->
  flat_map (ToUpperFull db) s = map ascii_upper s
  /\ flat_map (ToLowerFull db) s = map ascii_lower s.
Proof.
  intros Hdb. induction s as [|c s IH]; [now split|].
  cbn [forallb flat_map map]. rewrite andb_true_iff. intros [Hc Hs].
  destruct (Hdb c Hc) as [-> ->]. destruct (IH Hs) as [-> ->]. now split.
Qed.

Lemma upper_flat (s : str) :
  ascii_consistent db -> upper db s = flat_map (ToUpperFull db) s.
Proof.
  intros Hdb. unfold upper.
  destruct (forallb is_ascii_cp s) eqn:E; [|reflexivity].
  symmetry. now apply flat_map_ascii.
Qed.

Lemma lower_flat (s : str) :
  ascii_consistent db -> forallb no_sigma s = true ->
  lower db s = flat_map (ToLowerFull db) s.
Proof.
  intros Hdb Hs. unfold lower.
  destruct (forallb is_ascii_cp s) eqn:E.
  - symmetry. now apply flat_map_ascii.
  - now apply lower_from_no_sigma.
Qed.

Lemma lstrip_flat_map (s : str) :
  forallb (round_trips db) s = true ->
  lstrip (flat_map (ToUpperFull db) s)
  = flat_map (ToUpperFull db) (lstrip s).
Proof.
  induction s as [|c s IH]; [reflexivity|].
  cbn [forallb flat_map lstrip]. rewrite andb_true_iff. intros [Hc Hs].
  destruct (round_trips_facts c Hc) as (_ & _ & _ & Hws).
  destruct (isspace c) eqn:Ec.
  - rewrite Hws. cbn [app lstrip]. rewrite Ec. now apply IH.
  - destruct Hws as [Hne Hall].
    destruct (ToUpperFull db c) as [|u us] eqn:Eu; [congruence|].
    cbn [forallb] in Hall. apply andb_true_iff in Hall as [Hu _].
    apply negb_true_iff in Hu. cbn [app lstrip flat_map].
    now rewrite Hu, Eu.
Qed.

Lemma rstrip_app (a b : str) :
  rstrip (a ++ b)
  = match rstrip b with
    | [] => rstrip a
    | _ => a ++ rstrip b
    end.
Proof.
  induction a as [|x a IH].
  - cbn [app]. now destruct (rstrip b).
  - cbn [app rstrip]. rewrite IH.
    destruct (rstrip b) as [|k ks]; [reflexivity|].
    now destruct a.
Qed.

Lemma rstrip_no_space (u : str) :
  forallb no_space u = true -> rstrip u = u.
Proof.
  induction u as [|x u IH]; [reflexivity|].
  cbn [forallb rstrip]. rewrite andb_true_iff, negb_true_iff.
  intros [Hx Hu]. rewrite (IH Hu), Hx. now destruct u.
Qed.

Lemma rstrip_flat_map (s : str) :
  forallb (round_trips db) s = true ->
  rstrip (flat_map (ToUpperFull db) s)
  = flat_map (ToUpperFull db) (rstrip s).
Proof.
  induction s as [|c s IH]; [reflexivity|].
  intros H. pose proof H as Hall. cbn [forallb] in H.
  apply andb_true_iff in H as [Hc Hs].
  pose proof (rstrip_forallb (round_trips db) s Hs) as Hkept.
  cbn [flat_map rstrip]. rewrite rstrip_app, (IH Hs).
  destruct (round_trips_facts c Hc) as (_ & _ & _ & Hws).
  destruct (rstrip s) as [|k ks] eqn:Ek.
  - cbn [flat_map]. destruct (isspace c) eqn:Ec.
    + rewrite Hws. cbn [rstrip]. now rewrite Ec.
    + destruct Hws as [_ Hns]. rewrite (rstrip_no_space _ Hns).
      cbn [flat_map]. now rewrite app_nil_r.
  - cbn [forallb] in Hkept. apply andb_true_iff in Hkept as [Hk _].
    destruct (round_trips_facts k Hk) as (_ & _ & _ & Hwk).
    assert (Hne : ToUpperFull db k <> []).
    { destruct (isspace k); [rewrite Hwk; discriminate | apply Hwk]. }
    cbn [flat_map].
    destruct (ToUpperFull db k) as [|u us]; [congruence | reflexivity].
Qed.

Lemma strip_flat_map (s : str) :
  forallb (round_trips db) s = true ->
  strip (flat_map (ToUpperFull db) s)
  = flat_map (ToUpperFull db) (strip s).
Proof.
  intros H. unfold strip. rewrite (lstrip_flat_map s H).
  apply rstrip_flat_map. now apply lstrip_forallb.
Qed.

Lemma round_trips_no_sigma (s : str) :
  forallb (round_trips db) s = true ->
  forallb no_sigma s = true
  /\ forallb no_sigma (flat_map (ToUpperFull db) s) = true
  /\ flat_map (ToLowerFull db) (flat_map (ToUpperFull db) s)
     = flat_map (ToLowerFull db) s.
Proof.
  induction s as [|c s IH]; [now repeat split|].
  cbn [forallb flat_map]. rewrite andb_true_iff. intros [Hc Hs].
  destruct (round_trips_facts c Hc) as (H1 & H2 & H3 & _).
  destruct (IH Hs) as (I1 & I2 & I3).
  rewrite H1, I1, forallb_app, H2, I2, flat_map_app, H3, I3.
  now repeat split.
Qed.

Lemma SameFilter_round_trip_upper_rejected (src : str) :
  ascii_consistent db -> forallb (round_trips db) src = true ->
  SameFilter.filter db {| SameFilter._lower := true |} src (upper db src)
  = None.
Proof.
  intros Hdb Hsrc. unfold SameFilter.filter. cbn [SameFilter._lower].
  rewrite (upper_flat src Hdb), (strip_flat_map src Hsrc).
  pose proof (strip_forallb (round_trips db) src Hsrc) as Hs.
  destruct (round_trips_no_sigma (strip src) Hs) as (N1 & N2 & Hround).
  rewrite (lower_flat _ Hdb N1), (lower_flat _ Hdb N2), Hround.
  now rewrite str_eqb_refl.
Qed.

End RoundTrip.

(** C8, as far as the code goes. [SameFilter(lower=True).filter(src,
    src.upper())] is [None] for every ASCII source, and for every source
    all of whose characters have an upper case that lowers back to the
    lower case of the character ([round_trips]: this leaves out the sharp
    s and the like, and the Greek sigmas, whose lower case depends on the
    neighbours), the case tables agreeing with ASCII on ASCII. *)
Theorem SameFilter_rejects_round_trip_upper (db : case_db) (src : str) :
  forallb is_ascii_cp src = true
  \/ (ascii_consistent db /\ forallb (round_trips db) src = true) ->
  SameFilter.filter db {| SameFilter._lower := true |} src (upper db src)
  = None.
Proof.
  intros [Hascii | [Hdb Hsrc]].
  - now apply SameFilter_ascii_upper_rejected.
  - now apply SameFilter_round_trip_upper_rejected.
Qed.

Lemma latin1_cases_ascii_consistent : ascii_consistent latin1_cases.
Proof.
  intros c Hc. unfold is_ascii_cp in Hc. apply N.ltb_lt in Hc.
  unfold latin1_cases. cbn [ToUpperFull ToLowerFull].
  split.
  - repeat match goal with
      | |- context [(?a =? ?b)%N] =>
          destruct (N.eqb_spec a b); [lia|]
      end.
    destruct (N.leb_spec 0xE0 c); [lia | reflexivity].
  - repeat match goal with
      | |- context [(?a =? ?b)%N] =>
          destruct (N.eqb_spec a b); [lia|]
      end.
    destruct (N.leb_spec 0xC0 c); [lia | reflexivity].
Qed.

(** Beyond ASCII: U+00E9, "a b" between U+3000 spaces, U+4F60 U+597D and
    U+00FF, whose upper case U+0178 lies outside Latin-1. *)
Lemma SameFilter_rejects_round_trip_upper_witness :
  (forallb is_ascii_cp
     ([0x3000; 0xE9]%N ++ lit " a b " ++ [0x4F60; 0x597D; 0xFF; 0x3000]%N)
   = true
   \/ (ascii_consistent latin1_cases
       /\ forallb (round_trips latin1_cases)
            ([0x3000; 0xE9]%N ++ lit " a b "
               ++ [0x4F60; 0x597D; 0xFF; 0x3000]%N)
          = true))
  /\ SameFilter.filter latin1_cases {| SameFilter._lower := true |}
       ([0x3000; 0xE9]%N ++ lit " a b " ++ [0x4F60; 0x597D; 0xFF; 0x3000]%N)
       (upper latin1_cases
          ([0x3000; 0xE9]%N ++ lit " a b "
             ++ [0x4F60; 0x597D; 0xFF; 0x3000]%N))
     = None.
Proof.
  assert (H : forallb is_ascii_cp
                ([0x3000; 0xE9]%N ++ lit " a b "
                   ++ [0x4F60; 0x597D; 0xFF; 0x3000]%N) = true
              \/ (ascii_consistent latin1_cases
                  /\ forallb (round_trips latin1_cases)
                       ([0x3000; 0xE9]%N ++ lit " a b "
                          ++ [0x4F60; 0x597D; 0xFF; 0x3000]%N)
                     = true)).
  { right. split; [exact latin1_cases_ascii_consistent | reflexivity]. }
  split; [exact H|].
  exact (SameFilter_rejects_round_trip_upper latin1_cases _ H).
Defined.

(** The characters the condition leaves out are kept by the filter: the
    micro sign U+00B5 (upper case U+039C, which lowers to U+03BC) beside
    the sharp s. *)
Example SameFilter_micro_sign_kept :
  round_trips latin1_cases 0xDF%N = false
  /\ round_trips latin1_cases 0xB5%N = false
  /\ SameFilter.filter latin1_cases {| SameFilter._lower := true |}
       [0xB5%N] (upper latin1_cases [0xB5%N])
     = Some ([0xB5%N], [0x39C%N]).
Proof. repeat split; reflexivity. Qed.
